(** * Command-risk classification of the Linux helper ([src/tools.ts], [dangerCheck])

    The development embeds the [execute] body of the [dangerCheck] tool:
    the table [dangerousPatterns] of regular expressions, the
    [filter]/[map] pipeline that turns matching entries into risks, and
    the template literal that builds the [instruction] text.

    JavaScript strings are sequences of UTF-16 code units, and a regular
    expression without the [u] flag works on code units, so a string is
    a [list N] here.  Every JavaScript string is such a list (of numbers
    below 65536); the statements below quantify over all lists and so
    cover all of them.

    Beside [dangerCheck] the development embeds [suggestCommand] and
    [fixError] of the same file, and the chat
    client ([useAgent], [handleSubmit] and the [code] component of
    [App]): its handlers queue state updates, and a render applies the
    queue. *)

From Stdlib Require Import String Ascii.
From Stdlib Require Import List NArith Bool Arith Lia.
Import ListNotations.
Local Open Scope list_scope.

Set Implicit Arguments.

(** ** Strings *)

Module JS.

Definition jsstring := list N.

(** A source literal made of ASCII characters. *)
Fixpoint lit (s : string) : jsstring :=
  match s with
  | EmptyString => []
  | String a s' => N_of_ascii a :: lit s'
  end.

(** The line feed that ends each line inside the template literals. *)
Definition LF : jsstring := [10%N].

(** [Array.prototype.join]: the elements separated by [sep], nothing
    before the first nor after the last. *)
Fixpoint join (sep : jsstring) (xs : list jsstring) : jsstring :=
  match xs with
  | [] => []
  | x :: rest =>
      match rest with
      | [] => x
      | _ :: _ => x ++ sep ++ join sep rest
      end
  end.

(** [String.prototype.toUpperCase] on the code units [a]..[z]; every
    other ASCII unit is left as it is, as in JavaScript.  The receiver in
    [dangerCheck] is always the [risk] text of a table entry, which is
    made of ASCII letters; the Unicode case mappings above U+007F are
    not part of the model. *)
Definition upper_unit (c : N) : N :=
  if ((97 <=? c) && (c <=? 122))%N then (c - 32)%N else c.

Definition toUpperCase (s : jsstring) : jsstring := map upper_unit s.

(** [String.prototype.includes], as a proposition. *)
Definition includes (hay needle : jsstring) : Prop :=
  exists pre suf, hay = pre ++ needle ++ suf.

End JS.

Import JS.

(** ** Regular expressions *)

Module Re.

(** The atoms that occur in the table: a literal character (escaped or
    not), [\s], [.] and a range [[lo-hi]]. *)
Inductive CharClass : Type :=
| Lit (c : N)
| Space
| Dot
| Range (lo hi : N).

(** [\s]: WhiteSpace and LineTerminator code points of ECMAScript. *)
Definition is_space (c : N) : bool :=
  ((c =? 9) || (c =? 10) || (c =? 11) || (c =? 12) || (c =? 13) || (c =? 32)
   || (c =? 160) || (c =? 5760)
   || ((8192 <=? c) && (c <=? 8202))
   || (c =? 8232) || (c =? 8233) || (c =? 8239) || (c =? 8287)
   || (c =? 12288) || (c =? 65279))%N.

(** LineTerminator: what [.] refuses when the [s] flag is absent. *)
Definition is_line_terminator (c : N) : bool :=
  ((c =? 10) || (c =? 13) || (c =? 8232) || (c =? 8233))%N.

Definition class_test (k : CharClass) (c : N) : bool :=
  match k with
  | Lit a => (c =? a)%N
  | Space => is_space c
  | Dot => negb (is_line_terminator c)
  | Range lo hi => ((lo <=? c) && (c <=? hi))%N
  end.

(** Pattern syntax.  [Never] is the empty class [[]], which matches no
    character; the table does not use it, the derivative does. *)
Inductive RegExp : Type :=
| Empty
| Never
| Atom (k : CharClass)
| Seq (p q : RegExp)
| Alt (p q : RegExp)
| Star (p : RegExp).

(** [p+] and [p?].  Greedy or lazy, capturing or not: [test] only asks
    whether some match exists, which these do not change. *)
Definition Plus (p : RegExp) : RegExp := Seq p (Star p).
Definition Opt (p : RegExp) : RegExp := Alt p Empty.

Definition seq (ps : list RegExp) : RegExp := fold_right Seq Empty ps.

(** A run of literal characters. *)
Definition chars (s : string) : RegExp :=
  seq (map (fun c => Atom (Lit c)) (lit s)).

(** The strings a pattern matches in full. *)
Inductive Lang : RegExp -> jsstring -> Prop :=
| L_Empty : Lang Empty []
| L_Atom k c : class_test k c = true -> Lang (Atom k) [c]
| L_Seq p q s t : Lang p s -> Lang q t -> Lang (Seq p q) (s ++ t)
| L_AltL p q s : Lang p s -> Lang (Alt p q) s
| L_AltR p q s : Lang q s -> Lang (Alt p q) s
| L_Star0 p : Lang (Star p) []
| L_StarS p s t : Lang p s -> Lang (Star p) t -> Lang (Star p) (s ++ t).

Fixpoint nullable (r : RegExp) : bool :=
  match r with
  | Empty => true
  | Never => false
  | Atom _ => false
  | Seq p q => nullable p && nullable q
  | Alt p q => nullable p || nullable q
  | Star _ => true
  end.

(** What is left of [r] once the character [c] has been consumed. *)
Fixpoint deriv (c : N) (r : RegExp) : RegExp :=
  match r with
  | Empty => Never
  | Never => Never
  | Atom k => if class_test k c then Empty else Never
  | Seq p q =>
      if nullable p then Alt (Seq (deriv c p) q) (deriv c q)
      else Seq (deriv c p) q
  | Alt p q => Alt (deriv c p) (deriv c q)
  | Star p => Seq (deriv c p) (Star p)
  end.

(** Does [r] match the whole of [s]. *)
Fixpoint matches (r : RegExp) (s : jsstring) : bool :=
  match s with
  | [] => nullable r
  | c :: s' => matches (deriv c r) s'
  end.

(** Does [r] match some prefix of [s]: one attempt of the matcher at a
    fixed start index. *)
Fixpoint matchHere (r : RegExp) (s : jsstring) : bool :=
  if nullable r then true
  else match s with
       | [] => false
       | c :: s' => matchHere (deriv c r) s'
       end.

(** [RegExp.prototype.test] for a pattern without the [g] and [y]
    flags: [lastIndex] is read as 0 and never written, and the start
    index advances from 0 to the length of the string until one attempt
    succeeds. *)
Fixpoint test (r : RegExp) (s : jsstring) : bool :=
  if matchHere r s then true
  else match s with
       | [] => false
       | _ :: s' => test r s'
       end.

End Re.

Import Re.

(** ** The table and the tool *)

(** An entry of [dangerousPatterns]. *)
Record DangerSignature : Type := mkSig {
  pattern : RegExp;
  sig_risk : jsstring;
  sig_reason : jsstring
}.

(** An element of [risks]: the object [{ risk, reason }]. *)
Record RiskFinding : Type := mkRisk {
  risk : jsstring;
  reason : jsstring
}.

(** The object [execute] returns. *)
Record DangerCheckResult : Type := mkResult {
  type : jsstring;
  command : jsstring;
  risks : list RiskFinding;
  hasDanger : bool;
  instruction : jsstring
}.

Definition ws : RegExp := Atom Space.
Definition any : RegExp := Atom Dot.

(** [/rm\s+-rf?\s+\//] *)
Definition re_rm_root : RegExp :=
  seq [chars "rm"; Plus ws; chars "-r"; Opt (chars "f"); Plus ws; chars "/"].

(** [/rm\s+-rf/] *)
Definition re_rm_rf : RegExp :=
  seq [chars "rm"; Plus ws; chars "-rf"].

(** [/mkfs/] *)
Definition re_mkfs : RegExp := chars "mkfs".

(** [/dd\s+.*of=\/dev\//] *)
Definition re_dd : RegExp :=
  seq [chars "dd"; Plus ws; Star any; chars "of=/dev/"].

(** [/>\s*\/dev\/sd[a-z]/] *)
Definition re_dev_sd : RegExp :=
  seq [chars ">"; Star ws; chars "/dev/sd"; Atom (Range 97 122)].

(** [/chmod\s+-R\s+777/] *)
Definition re_chmod : RegExp :=
  seq [chars "chmod"; Plus ws; chars "-R"; Plus ws; chars "777"].

(** [/chown\s+-R/] *)
Definition re_chown : RegExp :=
  seq [chars "chown"; Plus ws; chars "-R"].

(** [/:\(\)\{\s*:\|:\s*&\s*\};\s*:/] *)
Definition re_fork_bomb : RegExp :=
  seq [chars ":(){"; Star ws; chars ":|:"; Star ws; chars "&"; Star ws;
       chars "};"; Star ws; chars ":"].

(** [/>\s*\/etc\/passwd/] *)
Definition re_passwd : RegExp :=
  seq [chars ">"; Star ws; chars "/etc/passwd"].

(** [/curl.*\|\s*(ba)?sh/] *)
Definition re_curl : RegExp :=
  seq [chars "curl"; Star any; chars "|"; Star ws; Opt (chars "ba"); chars "sh"].

(** [/wget.*\|\s*(ba)?sh/] *)
Definition re_wget : RegExp :=
  seq [chars "wget"; Star any; chars "|"; Star ws; Opt (chars "ba"); chars "sh"].

Definition dangerousPatterns : list DangerSignature :=
  [ mkSig re_rm_root (lit "critical") (lit "Deletes root filesystem");
    mkSig re_rm_rf (lit "high") (lit "Recursive force delete without confirmation");
    mkSig re_mkfs (lit "critical") (lit "Formats filesystem, destroys all data");
    mkSig re_dd (lit "critical") (lit "Overwrites disk device directly");
    mkSig re_dev_sd (lit "critical") (lit "Overwrites disk device");
    mkSig re_chmod (lit "high") (lit "Removes all file permissions security");
    mkSig re_chown (lit "medium") (lit "Recursive ownership change");
    mkSig re_fork_bomb (lit "critical") (lit "Fork bomb - crashes system");
    mkSig re_passwd (lit "critical") (lit "Overwrites user database");
    mkSig re_curl (lit "high") (lit "Executes remote script without review");
    mkSig re_wget (lit "high") (lit "Executes remote script without review") ].

(** The callback of [.filter]. *)
Definition fires (cmd : jsstring) (p : DangerSignature) : bool :=
  test (pattern p) cmd.

(** The callback of [.map]. *)
Definition finding_of (p : DangerSignature) : RiskFinding :=
  mkRisk (sig_risk p) (sig_reason p).

(** The callback of the inner [risks.map]: one line of the listing. *)
Definition risk_line (r : RiskFinding) : jsstring :=
  lit "- [" ++ toUpperCase (risk r) ++ lit "] " ++ reason r.

(** U+26A0 U+FE0F, the warning sign, and U+2705, the check mark. *)
Definition warning_sign : jsstring := [9888%N; 65039%N].
Definition check_mark : jsstring := [9989%N].

(** The template literal of the branch [risks.length > 0]. *)
Definition danger_instruction (cmd : jsstring) (rs : list RiskFinding) : jsstring :=
  warning_sign ++ lit " DANGER DETECTED in command: " ++ cmd ++ LF
  ++ LF
  ++ lit "Risks found:" ++ LF
  ++ join LF (map risk_line rs) ++ LF
  ++ LF
  ++ lit "Provide:" ++ LF
  ++ lit "1. **Why It's Dangerous**: Detailed explanation of what could go wrong" ++ LF
  ++ lit "2. **Safer Alternative**: A safer way to accomplish the same goal" ++ LF
  ++ lit "3. **If You Must Proceed**: Precautions and backup steps" ++ LF
  ++ lit "4. **Recovery Options**: What to do if something goes wrong".

(** The template literal of the other branch. *)
Definition safe_instruction (cmd : jsstring) : jsstring :=
  check_mark ++ lit " No obvious dangers detected in: " ++ cmd ++ LF
  ++ LF
  ++ lit "However, always:" ++ LF
  ++ lit "1. Understand what a command does before running it" ++ LF
  ++ lit "2. Test with dry-run flags when available" ++ LF
  ++ lit "3. Have backups for important data" ++ LF
  ++ lit "4. Use sudo only when necessary".

(** The body of [execute]. *)
Definition dangerCheck (cmd : jsstring) : DangerCheckResult :=
  let rs := map finding_of (filter (fires cmd) dangerousPatterns) in
  mkResult (lit "danger_check") cmd rs (0 <? length rs)
    (if 0 <? length rs then danger_instruction cmd rs else safe_instruction cmd).

(** ** The objects a call works on *)

Module Runtime.

(** A RegExp object: its pattern, the flags [g] and [y], and
    [lastIndex], the one property that [test] reads and writes. *)
Record RegExpObject : Type := mkRegExp {
  source : RegExp;
  global : bool;
  sticky : bool;
  lastIndex : nat
}.

(** The objects there are, by address. *)
Definition Store : Type := list RegExpObject.

(** A regular expression literal evaluates to a new object each time it
    is reached; the literals of [dangerousPatterns] carry no flag. *)
Definition literal (p : RegExp) (st : Store) : nat * Store :=
  (length st, st ++ [mkRegExp p false false 0]).

Definition setLastIndex (ref v : nat) (st : Store) : Store :=
  match nth_error st ref with
  | Some o =>
      firstn ref st ++ mkRegExp (source o) (global o) (sticky o) v :: skipn (S ref) st
  | None => st
  end.

(** The matcher of a pattern as the engine runs it: the alternatives
    from left to right, a quantifier greedy and refusing an iteration
    that consumes nothing, [k] what remains to be matched.  It gives
    the input left after the match. *)
Fixpoint matcher (r : RegExp) (input : jsstring)
    (k : jsstring -> option jsstring) {struct r} : option jsstring :=
  match r with
  | Empty => k input
  | Never => None
  | Atom c =>
      match input with
      | x :: rest => if class_test c x then k rest else None
      | [] => None
      end
  | Seq p q => matcher p input (fun rest => matcher q rest k)
  | Alt p q =>
      match matcher p input k with
      | Some e => Some e
      | None => matcher q input k
      end
  | Star p =>
      (fix repeat (fuel : nat) (input : jsstring) {struct fuel} : option jsstring :=
         match fuel with
         | 0 => k input
         | S fuel' =>
             match
               matcher p input
                 (fun rest =>
                    if length rest <? length input then repeat fuel' rest else None)
             with
             | Some e => Some e
             | None => k input
             end
         end) (length input) input
  end.

(** The end index of the match that starts at [index], if there is one. *)
Definition matchAt (p : RegExp) (s : jsstring) (index : nat) : option nat :=
  match matcher p (skipn index s) (fun rest => Some rest) with
  | Some rest => Some (length s - length rest)
  | None => None
  end.

(** The loop of RegExpBuiltinExec from [index]: past the end there is
    no match; a failure at [index] ends a sticky search and moves any
    other one to the next index. *)
Fixpoint scan (fuel : nat) (p : RegExp) (y : bool) (s : jsstring) (index : nat)
    : option nat :=
  if length s <? index then None
  else match matchAt p s index with
       | Some e => Some e
       | None =>
           if y then None
           else match fuel with
                | 0 => None
                | S fuel' => scan fuel' p y s (S index)
                end
       end.

(** [RegExp.prototype.test] on the object at [ref]; there is no result
    when [ref] is not an object (a TypeError).  With [g] or [y] the
    search starts at [lastIndex], which then becomes the end of the
    match, or 0 when there is none.  With neither flag the search
    starts at 0 and [lastIndex] is left alone. *)
Definition RegExp_test (ref : nat) (s : jsstring) (st : Store) : option (bool * Store) :=
  match nth_error st ref with
  | None => None
  | Some o =>
      if global o || sticky o
      then match scan (length s) (source o) (sticky o) s (lastIndex o) with
           | Some e => Some (true, setLastIndex ref e st)
           | None => Some (false, setLastIndex ref 0 st)
           end
      else Some (test (source o) s, st)
  end.

(** An element of the array [dangerousPatterns] once it is built: the
    address of its RegExp object, its risk and its reason. *)
Record Entry : Type := mkEntry {
  pattern_ref : nat;
  entry_risk : jsstring;
  entry_reason : jsstring
}.

(** The array literal: each element evaluates its regular expression
    literal, in the order of the table. *)
Fixpoint build (table : list DangerSignature) (st : Store) : list Entry * Store :=
  match table with
  | [] => ([], st)
  | sg :: rest =>
      let (ref, st1) := literal (pattern sg) st in
      let (entries, st2) := build rest st1 in
      (mkEntry ref (sig_risk sg) (sig_reason sg) :: entries, st2)
  end.

(** [.filter((p) => p.pattern.test(command))], element after element. *)
Fixpoint filter_test (command : jsstring) (entries : list Entry) (st : Store)
    : option (list Entry * Store) :=
  match entries with
  | [] => Some ([], st)
  | e :: rest =>
      match RegExp_test (pattern_ref e) command st with
      | None => None
      | Some (b, st1) =>
          match filter_test command rest st1 with
          | None => None
          | Some (kept, st2) => Some (if b then e :: kept else kept, st2)
          end
      end
  end.

(** The body of [execute] on a store of objects. *)
Definition execute (command : jsstring) (st : Store) : option (DangerCheckResult * Store) :=
  let (entries, st1) := build dangerousPatterns st in
  match filter_test command entries st1 with
  | None => None
  | Some (kept, st2) =>
      let rs := map (fun e => mkRisk (entry_risk e) (entry_reason e)) kept in
      Some (mkResult (lit "danger_check") command rs (0 <? length rs)
              (if 0 <? length rs then danger_instruction command rs
               else safe_instruction command),
            st2)
  end.

(** What happens on the agent: an invocation of the tool, or anything
    else, which may do whatever it likes to the objects there are. *)
Inductive Activity : Type :=
| Invoke (command : jsstring)
| Elsewhere (effect : Store -> Store).

(** The results of the invocations of a run, in order. *)
Fixpoint serve (run : list Activity) (st : Store) : list (option DangerCheckResult) :=
  match run with
  | [] => []
  | Invoke c :: rest =>
      match execute c st with
      | Some (r, st') => Some r :: serve rest st'
      | None => None :: serve rest st
      end
  | Elsewhere f :: rest => serve rest (f st)
  end.

(** The commands of the invocations of a run, in order. *)
Fixpoint invoked (run : list Activity) : list jsstring :=
  match run with
  | [] => []
  | Invoke c :: rest => c :: invoked rest
  | Elsewhere _ :: rest => invoked rest
  end.

(** The objects a call leaves behind. *)
Definition garbage : Store :=
  map (fun sg => mkRegExp (pattern sg) false false 0) dangerousPatterns.

End Runtime.

(** ** The procedure as the specification words it *)

Module Spec.

(** "For each signature in table order, test the pattern against the
    input command; if it matches, append a finding to the result list." *)
Definition scan (cmd : jsstring) (table : list DangerSignature) : list RiskFinding :=
  fold_left
    (fun acc p => if test (pattern p) cmd then acc ++ [mkRisk (sig_risk p) (sig_reason p)] else acc)
    table [].

(** The number of signatures of a table that match a command. *)
Definition matching (cmd : jsstring) (table : list DangerSignature) : nat :=
  fold_right (fun p n => if test (pattern p) cmd then S n else n) 0 table.

(** The upper-case names of the risk levels. *)
Definition level_name (level : jsstring) : jsstring :=
  if list_eq_dec N.eq_dec level (lit "critical") then lit "CRITICAL"
  else if list_eq_dec N.eq_dec level (lit "high") then lit "HIGH"
  else if list_eq_dec N.eq_dec level (lit "medium") then lit "MEDIUM"
  else if list_eq_dec N.eq_dec level (lit "low") then lit "LOW"
  else level.

(** A finding listed as [- [RISK_LEVEL] reason]. *)
Definition finding_line (r : RiskFinding) : jsstring :=
  lit "- [" ++ level_name (risk r) ++ lit "] " ++ reason r.

(** The four fixed section headers of the guidance for a dangerous
    command: danger explanation, safer alternative, precautions and
    recovery. *)
Definition danger_sections : list jsstring :=
  [ lit "1. **Why It's Dangerous**: Detailed explanation of what could go wrong";
    lit "2. **Safer Alternative**: A safer way to accomplish the same goal";
    lit "3. **If You Must Proceed**: Precautions and backup steps";
    lit "4. **Recovery Options**: What to do if something goes wrong" ].

(** The four fixed generic safety reminders. *)
Definition safety_reminders : list jsstring :=
  [ lit "1. Understand what a command does before running it";
    lit "2. Test with dry-run flags when available";
    lit "3. Have backups for important data";
    lit "4. Use sudo only when necessary" ].

(** The guidance as a sequence of lines (a command that holds line
    feeds spreads its line over several). *)
Definition danger_guidance (cmd : jsstring) (rs : list RiskFinding) : list jsstring :=
  [ warning_sign ++ lit " DANGER DETECTED in command: " ++ cmd; []; lit "Risks found:" ]
  ++ map finding_line rs
  ++ [ []; lit "Provide:" ] ++ danger_sections.

Definition safe_guidance (cmd : jsstring) : list jsstring :=
  [ check_mark ++ lit " No obvious dangers detected in: " ++ cmd; []; lit "However, always:" ]
  ++ safety_reminders.

(** A non-empty run of [\s] characters. *)
Definition blank (s : jsstring) : Prop :=
  s <> [] /\ Forall (fun c => is_space c = true) s.

(** A recursive delete as the pattern spells it: [rm], blanks, the flag
    [-r] or [-rf], blanks, and then the target together with whatever
    follows it on the command line. *)
Definition recursive_delete (cmd target : jsstring) : Prop :=
  exists pre gap1 flag gap2,
    blank gap1 /\ blank gap2 /\ (flag = lit "-r" \/ flag = lit "-rf") /\
    cmd = pre ++ lit "rm" ++ gap1 ++ flag ++ gap2 ++ target.

End Spec.

(** ** A recursive delete as a command line *)

Module Shell.





End Shell.

(** The findings the claims name. *)
Definition root_delete : RiskFinding :=
  mkRisk (lit "critical") (lit "Deletes root filesystem").
Definition force_delete : RiskFinding :=
  mkRisk (lit "high") (lit "Recursive force delete without confirmation").
Definition remote_script : RiskFinding :=
  mkRisk (lit "high") (lit "Executes remote script without review").
Definition fork_bomb : RiskFinding :=
  mkRisk (lit "critical") (lit "Fork bomb - crashes system").
Definition chmod_777 : RiskFinding :=
  mkRisk (lit "high") (lit "Removes all file permissions security").

(** The fork-bomb idiom. *)
Definition fork_bomb_idiom : jsstring := lit ":(){ :|:& };:".

(** ** The other tools of [linuxTools] *)

(** Is a string truthy: every string but the empty one. *)
Definition truthy (s : jsstring) : bool :=
  match s with [] => false | _ :: _ => true end.

(** [o || fallback] for an optional string ([z.string().optional()]):
    [o] is absent, that is [undefined] and falsy, or a string. *)
Definition or_else (o : option jsstring) (fallback : jsstring) : jsstring :=
  match o with
  | Some s => if truthy s then s else fallback
  | None => fallback
  end.

(** The second line of the templates of [suggestCommand] and [fixError]
    is made of eight spaces. *)
Definition indent_line : jsstring := lit "        ".

Module Suggest.

Record Result : Type := mkResult {
  type : jsstring;
  task : jsstring;
  distro : jsstring;
  instruction : jsstring
}.

(** The inner template [` (for ${distro})`] and its alternative. *)
Definition for_distro (distro : option jsstring) : jsstring :=
  match distro with
  | Some d => if truthy d then lit " (for " ++ d ++ lit ")" else []
  | None => []
  end.

Definition format : jsstring :=
  lit "Format your response as:" ++ LF
  ++ lit "1. **Recommended Command**: The primary command to use" ++ LF
  ++ lit "2. **Explanation**: Why this is the best approach" ++ LF
  ++ lit "3. **Alternative Options**: Other ways to accomplish this" ++ LF
  ++ lit "4. **Pro Tips**: Useful flags or variations" ++ LF
  ++ lit "5. **Example Usage**: Real-world example with expected output".

(** The body of [execute] of [suggestCommand]. *)
Definition suggestCommand (task : jsstring) (distro : option jsstring) : Result :=
  mkResult (lit "suggest") task (or_else distro (lit "generic"))
    (lit "Suggest the best command(s) to: " ++ task ++ for_distro distro ++ LF
     ++ indent_line ++ LF
     ++ format).

End Suggest.

Module Fix.

Record Result : Type := mkResult {
  type : jsstring;
  error : jsstring;
  context : jsstring;
  instruction : jsstring
}.

(** The inner template [` (Context: ${context})`] and its alternative. *)
Definition in_context (context : option jsstring) : jsstring :=
  match context with
  | Some c => if truthy c then lit " (Context: " ++ c ++ lit ")" else []
  | None => []
  end.

Definition format : jsstring :=
  lit "Format your response as:" ++ LF
  ++ lit "1. **Error Analysis**: What does this error actually mean?" ++ LF
  ++ lit "2. **Common Causes**: Top reasons this error occurs" ++ LF
  ++ lit "3. **Diagnostic Steps**: Commands to gather more information" ++ LF
  ++ lit "4. **Solution(s)**: Step-by-step fix instructions" ++ LF
  ++ lit "5. **Prevention**: How to avoid this in the future".

(** The body of [execute] of [fixError]. *)
Definition fixError (error : jsstring) (context : option jsstring) : Result :=
  mkResult (lit "fix") error (or_else context (lit "unknown"))
    (lit "Help troubleshoot this error: " ++ error ++ in_context context ++ LF
     ++ indent_line ++ LF
     ++ format).

End Fix.

(** ** The chat client ([useAgent] and [App]) *)

Module App.

Inductive Role : Type := user | assistant.

(** The interface [Message]; [isStreaming] is optional. *)
Record Message : Type := mkMessage {
  role : Role;
  content : jsstring;
  isStreaming : option bool
}.

(** [newMessages[newMessages.length - 1]], [undefined] on an empty array. *)
Definition lastMessage (ms : list Message) : option Message :=
  match rev ms with
  | [] => None
  | m :: _ => Some m
  end.

(** The condition [lastMessage?.isStreaming]. *)
Definition streaming (m : option Message) : bool :=
  match m with
  | Some m => match isStreaming m with Some true => true | _ => false end
  | None => false
  end.

(** An assignment to fields of the last element. *)
Definition change_last (f : Message -> Message) (ms : list Message) : list Message :=
  match rev ms with
  | [] => []
  | m :: before => rev (f m :: before)
  end.

(** What [setMessages] is given: a value, or one of the three updater
    functions.  The updater of [case "stream"] reads
    [streamingContentRef.current] when it runs, the one of [case "done"]
    holds [data.content]. *)
Inductive MessagesUpdate : Type :=
| Value (ms : list Message)
| StreamUpdater
| DoneUpdater (content : jsstring)
| Append (m : Message).

Definition apply_update (current : jsstring) (u : MessagesUpdate)
    (prev : list Message) : list Message :=
  match u with
  | Value ms => ms
  | StreamUpdater =>
      if streaming (lastMessage prev)
      then change_last (fun m => mkMessage (role m) current (isStreaming m)) prev
      else prev ++ [mkMessage assistant current (Some true)]
  | DoneUpdater c =>
      if streaming (lastMessage prev)
      then change_last (fun m => mkMessage (role m) c (Some false)) prev
      else prev
  | Append m => prev ++ [m]
  end.

(** What the agent sends, as [JSON.parse(event.data)] gives it, by the
    [type] the [switch] looks at. *)
Inductive ServerEvent : Type :=
| history (messages : option (list Message))
| stream (content : jsstring)
| done (content : jsstring)
| error (message : jsstring)
| cleared
| tool_calls
| other (type : jsstring).

(** What the client sends. *)
Inductive ClientMessage : Type :=
| get_history
| chat (content : jsstring)
| clear.

Inductive ReadyState : Type := CONNECTING | OPEN | CLOSING | CLOSED.

(** The state of the component: what the last render showed, the two
    refs, what was handed to [ws.send], and the state updates React has
    queued since the last render. *)
Record Hook : Type := mkHook {
  connected : bool;
  messages : list Message;
  isLoading : bool;
  input : jsstring;
  streamingContentRef : jsstring;
  wsRef : option ReadyState;
  sent : list ClientMessage;
  pendingConnected : list bool;
  pendingMessages : list MessagesUpdate;
  pendingLoading : list bool;
  pendingInput : list jsstring
}.

Definition initial : Hook :=
  mkHook false [] false [] [] None [] [] [] [] [].

Definition isOpen (h : Hook) : bool :=
  match wsRef h with Some OPEN => true | _ => false end.

Definition setConnected (b : bool) (h : Hook) : Hook :=
  mkHook (connected h) (messages h) (isLoading h) (input h) (streamingContentRef h)
    (wsRef h) (sent h) (pendingConnected h ++ [b]) (pendingMessages h)
    (pendingLoading h) (pendingInput h).

Definition setMessages (u : MessagesUpdate) (h : Hook) : Hook :=
  mkHook (connected h) (messages h) (isLoading h) (input h) (streamingContentRef h)
    (wsRef h) (sent h) (pendingConnected h) (pendingMessages h ++ [u])
    (pendingLoading h) (pendingInput h).

Definition setIsLoading (b : bool) (h : Hook) : Hook :=
  mkHook (connected h) (messages h) (isLoading h) (input h) (streamingContentRef h)
    (wsRef h) (sent h) (pendingConnected h) (pendingMessages h)
    (pendingLoading h ++ [b]) (pendingInput h).

Definition setInput (v : jsstring) (h : Hook) : Hook :=
  mkHook (connected h) (messages h) (isLoading h) (input h) (streamingContentRef h)
    (wsRef h) (sent h) (pendingConnected h) (pendingMessages h)
    (pendingLoading h) (pendingInput h ++ [v]).

Definition setStreamingContent (v : jsstring) (h : Hook) : Hook :=
  mkHook (connected h) (messages h) (isLoading h) (input h) v
    (wsRef h) (sent h) (pendingConnected h) (pendingMessages h)
    (pendingLoading h) (pendingInput h).

Definition setReadyState (r : ReadyState) (h : Hook) : Hook :=
  mkHook (connected h) (messages h) (isLoading h) (input h) (streamingContentRef h)
    (Some r) (sent h) (pendingConnected h) (pendingMessages h)
    (pendingLoading h) (pendingInput h).

Definition send (m : ClientMessage) (h : Hook) : Hook :=
  mkHook (connected h) (messages h) (isLoading h) (input h) (streamingContentRef h)
    (wsRef h) (sent h ++ [m]) (pendingConnected h) (pendingMessages h)
    (pendingLoading h) (pendingInput h).

(** [ws.onmessage]. *)
Definition onmessage (data : ServerEvent) (h : Hook) : Hook :=
  match data with
  | history ms =>
      setMessages (Value (match ms with Some l => l | None => [] end)) h
  | stream c =>
      setMessages StreamUpdater
        (setStreamingContent (streamingContentRef h ++ c) h)
  | done c =>
      setIsLoading false (setMessages (DoneUpdater c) (setStreamingContent [] h))
  | error m =>
      setMessages
        (Append (mkMessage assistant (warning_sign ++ lit " Error: " ++ m) None))
        (setIsLoading false h)
  | cleared => setMessages (Value []) h
  | tool_calls => h
  | other _ => h
  end.

(** [sendMessage]. *)
Definition sendMessage (c : jsstring) (h : Hook) : Hook :=
  if isOpen h
  then send (chat c)
         (setMessages (Append (mkMessage user c None))
            (setStreamingContent [] (setIsLoading true h)))
  else h.

(** [clearChat]. *)
Definition clearChat (h : Hook) : Hook :=
  if isOpen h then send clear h else h.

(** [String.prototype.trim]: the white space it strips is the set of
    [\s]. *)
Fixpoint trimStart (s : jsstring) : jsstring :=
  match s with
  | [] => []
  | c :: s' => if is_space c then trimStart s' else s
  end.

Definition trim (s : jsstring) : jsstring :=
  rev (trimStart (rev (trimStart s))).

(** [handleSubmit], with the [input] and [isLoading] of the last render. *)
Definition handleSubmit (h : Hook) : Hook :=
  if truthy (trim (input h)) && negb (isLoading h)
  then setInput [] (sendMessage (trim (input h)) h)
  else h.

(** The messages the next render shows if the updaters that are queued
    find [current] in [streamingContentRef]. *)
Definition next_messages (current : jsstring) (h : Hook) : list Message :=
  fold_left (fun ms u => apply_update current u ms) (pendingMessages h) (messages h).

(** A queue of plain values leaves the last one. *)
Definition settle (A : Type) (queued : list A) (shown : A) : A :=
  fold_left (fun _ v => v) queued shown.

(** React applies the queued updates of each state in the order they
    were queued; an updater function runs at that moment. *)
Definition render (h : Hook) : Hook :=
  mkHook
    (settle (pendingConnected h) (connected h))
    (next_messages (streamingContentRef h) h)
    (settle (pendingLoading h) (isLoading h))
    (settle (pendingInput h) (input h))
    (streamingContentRef h) (wsRef h) (sent h) [] [] [] [].

(** What can happen to the mounted component. *)
Inductive Action : Type :=
| Mount
| Opened
| Closed
| Unmount
| Receive (data : ServerEvent)
| SendMessage (content : jsstring)
| ClearChat
| Change (value : jsstring)
| Submit
| Render.

Definition step (h : Hook) (a : Action) : Hook :=
  match a with
  | Mount => setReadyState CONNECTING h
  | Opened => send get_history (setConnected true (setReadyState OPEN h))
  | Closed => setConnected false (setReadyState CLOSED h)
  | Unmount => setReadyState CLOSING h
  | Receive data => onmessage data h
  | SendMessage c => sendMessage c h
  | ClearChat => clearChat h
  | Change v => setInput v h
  | Submit => handleSubmit h
  | Render => render h
  end.

Definition run (trace : list Action) (h : Hook) : Hook := fold_left step trace h.

Definition is_render (a : Action) : bool :=
  match a with Render => true | _ => false end.

(** While a reply streams: whatever [streamingContentRef] holds when the
    queue is applied, the next render shows [shown] followed, once a
    chunk has come, by one streaming message of the assistant, whose
    content is what the ref holds then or what it holds now. *)
Definition streaming_view (shown : list Message) (started : bool) (h : Hook) : Prop :=
  forall current, exists text,
    next_messages current h
    = shown ++ (if started then [mkMessage assistant text (Some true)] else [])
    /\ (text = current \/ text = streamingContentRef h).

(** The two events that replace the whole list of messages. *)
Definition replaces (a : Action) : bool :=
  match a with
  | Receive (history _) => true
  | Receive cleared => true
  | _ => false
  end.

(** A trace without its renders. *)
Definition events (trace : list Action) : list Action :=
  filter (fun a => negb (is_render a)) trace.

(** [\w] *)
Definition word : RegExp :=
  Alt (Atom (Range 97 122))
    (Alt (Atom (Range 65 90)) (Alt (Atom (Range 48 57)) (Atom (Lit 95)))).

(** [/language-(\w+)/] *)
Definition re_language : RegExp := seq [chars "language-"; Plus word].

(** [isInline] of the [code] component: [exec] finds no match in
    [className || ""]. *)
Definition isInline (className : option jsstring) : bool :=
  negb (test re_language (or_else className [])).

End App.

(** * Regular expressions: the matcher against the language *)

Section Matcher.

Lemma nullable_Lang (r : RegExp) : nullable r = true <-> Lang r [].
Proof.
  split.
  - induction r; simpl; intro H; try discriminate.
    + constructor.
    + apply andb_true_iff in H as [Hp Hq].
      change (@nil N) with (@nil N ++ []). constructor; auto.
    + apply orb_true_iff in H as [Hp | Hq]; [apply L_AltL | apply L_AltR]; auto.
    + constructor.
  - intro H. remember (@nil N) as w eqn:Hw.
    induction H; simpl; auto; try discriminate.
    + apply app_eq_nil in Hw as [-> ->]. rewrite IHLang1, IHLang2; auto.
    + rewrite IHLang; auto.
    + rewrite IHLang; auto using orb_true_r.
Qed.

Lemma deriv_sound (c : N) (r : RegExp) :
  forall s, Lang (deriv c r) s -> Lang r (c :: s).
Proof.
  induction r; simpl; intros s H.
  - inversion H.
  - inversion H.
  - destruct (class_test k c) eqn:E; inversion H; subst. now constructor.
  - destruct (nullable r1) eqn:E.
    + inversion H; subst.
      * match goal with X : Lang (Seq _ _) _ |- _ => inversion X; subst end.
        change (c :: s0 ++ t) with ((c :: s0) ++ t). constructor; auto.
      * change (c :: s) with ([] ++ c :: s). constructor; auto.
        now apply nullable_Lang.
    + inversion H; subst.
      change (c :: s0 ++ t) with ((c :: s0) ++ t). constructor; auto.
  - inversion H; subst; [apply L_AltL | apply L_AltR]; auto.
  - inversion H; subst.
    change (c :: s0 ++ t) with ((c :: s0) ++ t). constructor; auto.
Qed.

Lemma deriv_complete (c : N) (r : RegExp) (s : jsstring) :
  Lang r (c :: s) -> Lang (deriv c r) s.
Proof.
  intro H. remember (c :: s) as w eqn:Hw. revert s Hw.
  induction H; intros u Hw; simpl; try discriminate.
  - injection Hw as -> <-. rewrite H. constructor.
  - destruct s as [| a s'].
    + simpl in Hw. subst t.
      assert (Hn : nullable p = true) by now apply nullable_Lang.
      rewrite Hn. apply L_AltR. auto.
    + simpl in Hw. injection Hw as -> <-.
      destruct (nullable p); [apply L_AltL |]; constructor; auto.
  - apply L_AltL; auto.
  - apply L_AltR; auto.
  - destruct s as [| a s'].
    + simpl in Hw. apply IHLang2 in Hw. exact Hw.
    + simpl in Hw. injection Hw as -> <-. constructor; auto.
Qed.

Lemma matches_Lang (r : RegExp) (s : jsstring) : matches r s = true <-> Lang r s.
Proof.
  revert r. induction s as [| c s IH]; intro r; simpl.
  - apply nullable_Lang.
  - rewrite IH. split; [apply deriv_sound | apply deriv_complete].
Qed.

Lemma matchHere_spec (r : RegExp) (s : jsstring) :
  matchHere r s = true <-> exists s1 s2, s = s1 ++ s2 /\ Lang r s1.
Proof.
  revert r. induction s as [| c s IH]; intro r; simpl.
  - destruct (nullable r) eqn:E.
    + split; auto. intros _. exists [], []. split; auto. now apply nullable_Lang.
    + split; [discriminate |]. intros (s1 & s2 & Hs & HL).
      symmetry in Hs. apply app_eq_nil in Hs as [-> _].
      apply nullable_Lang in HL. congruence.
  - destruct (nullable r) eqn:E.
    + split; auto. intros _. exists [], (c :: s). split; auto. now apply nullable_Lang.
    + rewrite IH. split.
      * intros (s1 & s2 & -> & HL). exists (c :: s1), s2. split; auto.
        now apply deriv_sound.
      * intros (s1 & s2 & Hs & HL). destruct s1 as [| a s1].
        -- apply nullable_Lang in HL. congruence.
        -- simpl in Hs. injection Hs as <- ->. exists s1, s2. split; auto.
           now apply deriv_complete.
Qed.

(** [test] answers whether some substring is in the language. *)
Lemma test_spec (r : RegExp) (s : jsstring) :
  test r s = true <-> exists pre mid suf, s = pre ++ mid ++ suf /\ Lang r mid.
Proof.
  induction s as [| c s IH]; cbn [test].
  - destruct (matchHere r []) eqn:E.
    + split; auto. intros _. apply matchHere_spec in E as (s1 & s2 & Hs & HL).
      exists [], s1, s2. split; [exact Hs | exact HL].
    + split; [discriminate |]. intros (pre & mid & suf & Hs & HL).
      symmetry in Hs. apply app_eq_nil in Hs as [-> Hs].
      assert (matchHere r [] = true)
        by (apply matchHere_spec; exists mid, suf; split; [symmetry; exact Hs | exact HL]).
      congruence.
  - destruct (matchHere r (c :: s)) eqn:E.
    + split; auto. intros _. apply matchHere_spec in E as (s1 & s2 & Hs & HL).
      exists [], s1, s2. split; [exact Hs | exact HL].
    + rewrite IH. split.
      * intros (pre & mid & suf & -> & HL). exists (c :: pre), mid, suf. split; [reflexivity | exact HL].
      * intros (pre & mid & suf & Hs & HL). destruct pre as [| a pre].
        -- assert (matchHere r (c :: s) = true)
             by (apply matchHere_spec; exists mid, suf; split; [exact Hs | exact HL]).
           congruence.
        -- simpl in Hs. injection Hs as <- ->. eauto.
Qed.

Lemma test_includes (r : RegExp) (hay needle : jsstring) :
  includes hay needle -> matches r needle = true -> test r hay = true.
Proof.
  intros (pre & suf & ->) H. apply test_spec. exists pre, needle, suf.
  split; auto. now apply matches_Lang.
Qed.

End Matcher.

(** * Building members of a pattern's language *)

Section Languages.

Lemma Lang_seq (ps : list RegExp) (ss : list jsstring) :
  Forall2 Lang ps ss -> Lang (seq ps) (concat ss).
Proof.
  induction 1 as [| p s ps ss Hp _ IH]; simpl.
  - constructor.
  - now constructor.
Qed.

Lemma Lang_chars (s : string) : Lang (chars s) (lit s).
Proof.
  unfold chars. induction s as [| a s IH]; simpl.
  - constructor.
  - change (N_of_ascii a :: lit s) with ([N_of_ascii a] ++ lit s).
    constructor; auto. constructor. simpl. apply N.eqb_refl.
Qed.

Lemma Lang_star_spaces (s : jsstring) :
  Forall (fun c => is_space c = true) s -> Lang (Star ws) s.
Proof.
  induction 1 as [| c s Hc _ IH].
  - constructor.
  - change (c :: s) with ([c] ++ s). constructor; auto. now constructor.
Qed.

Lemma Lang_plus_blank (s : jsstring) : Spec.blank s -> Lang (Plus ws) s.
Proof.
  intros [Hne Hall]. destruct s as [| c s]; [congruence |].
  inversion Hall; subst. change (c :: s) with ([c] ++ s).
  constructor; [now constructor | now apply Lang_star_spaces].
Qed.

Lemma Lang_opt_skip (p : RegExp) : Lang (Opt p) [].
Proof. apply L_AltR. constructor. Qed.

Lemma Lang_opt_take (p : RegExp) (s : jsstring) : Lang p s -> Lang (Opt p) s.
Proof. apply L_AltL. Qed.

End Languages.

(** * The pipeline [filter] then [map] *)

Section Pipeline.

Variable cmd : jsstring.

Lemma risks_eq :
  risks (dangerCheck cmd) = map finding_of (filter (fires cmd) dangerousPatterns).
Proof. reflexivity. Qed.

Lemma hasDanger_eq :
  hasDanger (dangerCheck cmd) = (0 <? length (risks (dangerCheck cmd))).
Proof. reflexivity. Qed.

Lemma instruction_eq :
  instruction (dangerCheck cmd) =
  if 0 <? length (risks (dangerCheck cmd))
  then danger_instruction cmd (risks (dangerCheck cmd))
  else safe_instruction cmd.
Proof. reflexivity. Qed.

Lemma In_risks (f : RiskFinding) :
  In f (risks (dangerCheck cmd)) <->
  exists p, In p dangerousPatterns /\ test (pattern p) cmd = true /\ f = finding_of p.
Proof.
  rewrite risks_eq, in_map_iff. split.
  - intros (p & <- & Hp). apply filter_In in Hp as [Hin Hf]. eauto.
  - intros (p & Hin & Hf & ->). exists p. split; auto. apply filter_In. auto.
Qed.

Lemma fires_In (p : DangerSignature) :
  In p dangerousPatterns -> test (pattern p) cmd = true ->
  In (finding_of p) (risks (dangerCheck cmd)).
Proof. intros. apply In_risks. eauto. Qed.

Lemma hasDanger_In (f : RiskFinding) :
  In f (risks (dangerCheck cmd)) -> hasDanger (dangerCheck cmd) = true.
Proof.
  rewrite hasDanger_eq. intro H. apply Nat.ltb_lt.
  destruct (risks (dangerCheck cmd)); [destruct H | simpl; lia].
Qed.

Lemma scan_acc (table : list DangerSignature) (acc : list RiskFinding) :
  fold_left
    (fun acc p => if test (pattern p) cmd then acc ++ [mkRisk (sig_risk p) (sig_reason p)] else acc)
    table acc
  = acc ++ map finding_of (filter (fires cmd) table).
Proof.
  revert acc. induction table as [| p table IH]; intro acc; simpl.
  - now rewrite app_nil_r.
  - rewrite IH. unfold fires at 2. destruct (test (pattern p) cmd); simpl; auto.
    now rewrite <- app_assoc.
Qed.

Lemma matching_filter (table : list DangerSignature) :
  Spec.matching cmd table = length (filter (fires cmd) table).
Proof.
  induction table as [| p table IH]; simpl; auto.
  unfold fires at 1. destruct (test (pattern p) cmd); simpl; auto.
Qed.

End Pipeline.

Section Order.

Variables (A : Type) (keep : A -> bool).

Lemma filter_nth_found (l : list A) (i : nat) (x : A) :
  nth_error (filter keep l) i = Some x ->
  exists a, nth_error l a = Some x /\ keep x = true /\
            nth_error (filter keep (skipn (S a) l)) 0 = nth_error (filter keep l) (S i).
Proof.
  revert i. induction l as [| y l IH]; intro i; simpl.
  - destruct i; discriminate.
  - destruct (keep y) eqn:E.
    + destruct i as [| i]; simpl.
      * intros [= ->]. exists 0. simpl. auto.
      * intro H. apply IH in H as (a & Ha & Hk & Hn). exists (S a). simpl. auto.
    + intro H. apply IH in H as (a & Ha & Hk & Hn). exists (S a). simpl. auto.
Qed.

(** [filter] keeps the order of the list it filters. *)
Lemma filter_nth_order (l : list A) (i j : nat) (x y : A) :
  i < j ->
  nth_error (filter keep l) i = Some x ->
  nth_error (filter keep l) j = Some y ->
  exists a b, a < b /\ nth_error l a = Some x /\ nth_error l b = Some y /\
              keep x = true /\ keep y = true.
Proof.
  revert i j. induction l as [| z l IH]; intros i j Hij; simpl.
  - destruct i; discriminate.
  - destruct (keep z) eqn:E.
    + destruct i as [| i]; simpl.
      * intros [= ->] Hy. destruct j as [| j]; [lia |]. simpl in Hy.
        destruct (@filter_nth_found l j _ Hy) as (b & Hb & Hk & _).
        exists 0, (S b). simpl. repeat split; auto. lia.
      * intros Hx Hy. destruct j as [| j]; [lia |]. simpl in Hy.
        destruct (IH i j ltac:(lia) Hx Hy) as (a & b & Hab & Ha & Hb & Hkx & Hky).
        exists (S a), (S b). simpl. repeat split; auto. lia.
    + intros Hx Hy.
      destruct (IH i j Hij Hx Hy) as (a & b & Hab & Ha & Hb & Hkx & Hky).
      exists (S a), (S b). simpl. repeat split; auto. lia.
Qed.

End Order.

(** * Facts about the table *)

Section Table.

Ltac each_signature H :=
  unfold dangerousPatterns in H; simpl in H;
  repeat (destruct H as [H | H]; [subst |]); [.. | destruct H].

Lemma table_levels (p : DangerSignature) :
  In p dangerousPatterns ->
  sig_risk p = lit "medium" \/ sig_risk p = lit "high" \/ sig_risk p = lit "critical".
Proof. intro H. each_signature H; simpl; auto. Qed.

Lemma table_upper (p : DangerSignature) :
  In p dangerousPatterns -> toUpperCase (sig_risk p) = Spec.level_name (sig_risk p).
Proof. intro H. each_signature H; vm_compute; reflexivity. Qed.

(** The only entry with the [chmod] pattern is the sixth. *)
Lemma table_chmod (p : DangerSignature) :
  In p dangerousPatterns -> pattern p = re_chmod -> finding_of p = chmod_777.
Proof.
  intros H E. each_signature H; try reflexivity; vm_compute in E; discriminate E.
Qed.

End Table.

(** * Joining lines *)

Section Lines.

Variable sep : jsstring.

Lemma join_cons (x : jsstring) (ys : list jsstring) :
  ys <> [] -> join sep (x :: ys) = x ++ sep ++ join sep ys.
Proof. destruct ys; [congruence | reflexivity]. Qed.

Lemma join_app (xs ys : list jsstring) :
  xs <> [] -> ys <> [] -> join sep (xs ++ ys) = join sep xs ++ sep ++ join sep ys.
Proof.
  intros Hx Hy. induction xs as [| x xs IH]; [congruence |].
  destruct xs as [| x' xs].
  - simpl app. now rewrite join_cons.
  - change ((x :: x' :: xs) ++ ys) with (x :: ((x' :: xs) ++ ys)).
    rewrite join_cons by discriminate. rewrite IH by discriminate.
    rewrite (join_cons x (ys := x' :: xs)) by discriminate.
    now rewrite <- !app_assoc.
Qed.

(** The layout of a headline, a blank line, a caption, a listing, a
    blank line, a second caption and four numbered lines. *)
Lemma join_listing (h c1 c2 n1 n2 n3 n4 : jsstring) (ls : list jsstring) :
  ls <> [] ->
  join sep ([h; []; c1] ++ ls ++ [[]; c2] ++ [n1; n2; n3; n4])
  = h ++ sep ++ sep ++ c1 ++ sep ++ join sep ls ++ sep ++ sep
      ++ c2 ++ sep ++ n1 ++ sep ++ n2 ++ sep ++ n3 ++ sep ++ n4.
Proof.
  intro H. rewrite join_app by (destruct ls; simpl; congruence).
  rewrite join_app by (auto; discriminate).
  simpl. now rewrite <- !app_assoc.
Qed.

Lemma join_notice (h c1 n1 n2 n3 n4 : jsstring) :
  join sep ([h; []; c1] ++ [n1; n2; n3; n4])
  = h ++ sep ++ sep ++ c1 ++ sep ++ n1 ++ sep ++ n2 ++ sep ++ n3 ++ sep ++ n4.
Proof. reflexivity. Qed.

End Lines.

(** * The claims *)

(** C1. For every command, [risks] is what the specification's loop
    builds (each signature of the table tested in table order, one
    finding appended per matching signature); its length is the number
    of matching signatures, so every match is kept and none is merged
    with another; and two findings stand in the order of the signatures
    they come from. *)
Theorem risks_follow_table (cmd : jsstring) :
  risks (dangerCheck cmd) = Spec.scan cmd dangerousPatterns
  /\ length (risks (dangerCheck cmd)) = Spec.matching cmd dangerousPatterns
  /\ (forall p, In p dangerousPatterns -> test (pattern p) cmd = true ->
        In (mkRisk (sig_risk p) (sig_reason p)) (risks (dangerCheck cmd)))
  /\ (forall i j f g, i < j ->
        nth_error (risks (dangerCheck cmd)) i = Some f ->
        nth_error (risks (dangerCheck cmd)) j = Some g ->
        exists a b p q, a < b
          /\ nth_error dangerousPatterns a = Some p
          /\ nth_error dangerousPatterns b = Some q
          /\ test (pattern p) cmd = true /\ test (pattern q) cmd = true
          /\ f = mkRisk (sig_risk p) (sig_reason p)
          /\ g = mkRisk (sig_risk q) (sig_reason q)).
Proof.
  repeat split.
  - unfold Spec.scan. now rewrite scan_acc.
  - rewrite matching_filter, risks_eq. apply length_map.
  - intros p Hin Ht. now apply (@fires_In cmd p).
  - intros i j f g Hij Hf Hg. rewrite risks_eq in Hf, Hg.
    rewrite nth_error_map in Hf, Hg.
    destruct (nth_error (filter (fires cmd) dangerousPatterns) i) as [p |] eqn:Ep;
      [| discriminate].
    destruct (nth_error (filter (fires cmd) dangerousPatterns) j) as [q |] eqn:Eq;
      [| discriminate].
    simpl in Hf, Hg. injection Hf as <-. injection Hg as <-.
    destruct (@filter_nth_order _ _ _ _ _ _ _ Hij Ep Eq) as (a & b & Hab & Ha & Hb & Hp & Hq).
    exists a, b, p, q. repeat split; auto.
Qed.

(** The order and the absence of merging on a command that two
    signatures with the same risk and reason match. *)
Example risks_follow_table_witness :
  risks (dangerCheck (lit "curl x | wget y | sh")) = [remote_script; remote_script]
  /\ exists a b p q, a < b
       /\ nth_error dangerousPatterns a = Some p
       /\ nth_error dangerousPatterns b = Some q
       /\ test (pattern p) (lit "curl x | wget y | sh") = true
       /\ test (pattern q) (lit "curl x | wget y | sh") = true
       /\ remote_script = mkRisk (sig_risk p) (sig_reason p)
       /\ remote_script = mkRisk (sig_risk q) (sig_reason q).
Proof.
  split; [vm_compute; reflexivity |].
  destruct (risks_follow_table (lit "curl x | wget y | sh")) as (_ & _ & _ & H).
  apply (H 0 1); [lia | vm_compute; reflexivity | vm_compute; reflexivity].
Defined.

(** C2. On [rm -rf /] the tool reports the root delete and then the
    recursive force delete, and these two signatures are the only ones
    of the table that match. *)
Theorem rm_rf_root :
  risks (dangerCheck (lit "rm -rf /")) = [root_delete; force_delete]
  /\ map (fires (lit "rm -rf /")) dangerousPatterns
     = [true; true; false; false; false; false; false; false; false; false; false].
Proof. split; vm_compute; reflexivity. Qed.

(** C6. On [curl http://example.com/install.sh | bash] the tool reports
    the remote script alone, and the [curl] signature is the only one of
    the table that matches. *)
Theorem curl_pipe_bash :
  risks (dangerCheck (lit "curl http://example.com/install.sh | bash")) = [remote_script]
  /\ map (fires (lit "curl http://example.com/install.sh | bash")) dangerousPatterns
     = [false; false; false; false; false; false; false; false; false; true; false].
Proof. split; vm_compute; reflexivity. Qed.

(** C7. The tool has a result on every string: [dangerCheck] is a
    function with no failing branch, whose matcher recurses on the
    pattern and on the string without any bound; the result restates the
    command and [hasDanger] says whether [risks] is non-empty.  The
    empty command and [ls -la] have no risk and no danger. *)
Theorem dangerCheck_total :
  (forall cmd, exists r,
      dangerCheck cmd = r /\ command r = cmd
      /\ (hasDanger r = true <-> risks r <> [])
      /\ length (risks r) <= length dangerousPatterns)
  /\ risks (dangerCheck []) = [] /\ hasDanger (dangerCheck []) = false
  /\ risks (dangerCheck (lit "ls -la")) = [] /\ hasDanger (dangerCheck (lit "ls -la")) = false.
Proof.
  split; [| repeat split; vm_compute; reflexivity].
  intro cmd. exists (dangerCheck cmd). repeat split.
  - rewrite hasDanger_eq. intros H E. rewrite E in H. discriminate.
  - rewrite hasDanger_eq. intro H. apply Nat.ltb_lt.
    destruct (risks (dangerCheck cmd)); [congruence | simpl; lia].
  - rewrite risks_eq, length_map. apply filter_length_le.
Qed.

Section Objects.

Import Runtime.

Lemma nth_error_placed (st more : Store) (o : RegExpObject) :
  nth_error ((st ++ [o]) ++ more) (length st) = Some o.
Proof.
  rewrite <- app_assoc. rewrite nth_error_app2 by lia.
  now rewrite Nat.sub_diag.
Qed.

(** Building the array puts one new object per entry behind the objects
    there were, and each element of the array refers to its own. *)
Lemma build_spec (table : list DangerSignature) :
  forall st, exists entries,
    build table st
    = (entries, st ++ map (fun sg => mkRegExp (pattern sg) false false 0) table)
    /\ forall more,
         Forall2
           (fun sg e =>
              nth_error
                (st ++ map (fun sg => mkRegExp (pattern sg) false false 0) table ++ more)
                (pattern_ref e)
              = Some (mkRegExp (pattern sg) false false 0)
              /\ entry_risk e = sig_risk sg /\ entry_reason e = sig_reason sg)
           table entries.
Proof.
  induction table as [| sg table IH]; intro st.
  - exists []. simpl. rewrite app_nil_r. split; auto.
  - destruct (IH (st ++ [mkRegExp (pattern sg) false false 0])) as (entries & E & Hall).
    exists (mkEntry (length st) (sig_risk sg) (sig_reason sg) :: entries).
    simpl. unfold literal. rewrite E. split.
    + now rewrite <- app_assoc.
    + intro more. constructor.
      * simpl. split; auto.
        change (st ++ mkRegExp (pattern sg) false false 0
                  :: map (fun sg0 => mkRegExp (pattern sg0) false false 0) table ++ more)
          with (st ++ [mkRegExp (pattern sg) false false 0]
                  ++ (map (fun sg0 => mkRegExp (pattern sg0) false false 0) table ++ more)).
        rewrite app_assoc. apply nth_error_placed.
      * specialize (Hall more). rewrite <- app_assoc in Hall. exact Hall.
Qed.

(** Tested on objects without flags, the elements are filtered as by
    [fires], and no object changes. *)
Lemma filter_test_spec (command : jsstring) (st : Store) :
  forall table entries,
    Forall2
      (fun sg e =>
         nth_error st (pattern_ref e) = Some (mkRegExp (pattern sg) false false 0)
         /\ entry_risk e = sig_risk sg /\ entry_reason e = sig_reason sg)
      table entries ->
    exists kept,
      filter_test command entries st = Some (kept, st)
      /\ map (fun e => mkRisk (entry_risk e) (entry_reason e)) kept
         = map finding_of (filter (fires command) table).
Proof.
  induction 1 as [| sg e table entries (Hobj & Hrisk & Hreason) _ (kept & E & Hkept)].
  - exists []. auto.
  - simpl. unfold RegExp_test. rewrite Hobj. simpl. rewrite E.
    unfold fires at 1. destruct (test (pattern sg) command).
    + exists (e :: kept). split; auto. simpl. rewrite Hkept.
      unfold finding_of at 1. now rewrite Hrisk, Hreason.
    + exists kept. auto.
Qed.

(** A call on any store returns what [dangerCheck] computes from the
    command alone, and leaves the objects there were as they were. *)
Lemma execute_spec (command : jsstring) (st : Store) :
  execute command st = Some (dangerCheck command, st ++ garbage).
Proof.
  unfold execute. destruct (build_spec dangerousPatterns st) as (entries & E & Hall).
  rewrite E. specialize (Hall []). rewrite app_nil_r in Hall.
  destruct (@filter_test_spec command _ _ _ Hall) as (kept & Ef & Hkept).
  fold garbage in Ef |- *. rewrite Ef, Hkept. reflexivity.
Qed.

Lemma serve_spec (run : list Activity) :
  forall st, serve run st = map (fun c => Some (dangerCheck c)) (invoked run).
Proof.
  induction run as [| [c | f] run IH]; intro st; simpl; auto.
  rewrite execute_spec. now rewrite IH.
Qed.

End Objects.

(** How a pattern with the [g] flag that outlives a call would behave:
    the second of two tests of the same string fails, because the first
    one left [lastIndex] at the end of its match. *)
Example global_flag_keeps_state :
  Runtime.RegExp_test 0 (lit "mkfs") [Runtime.mkRegExp re_mkfs true false 0]
  = Some (true, [Runtime.mkRegExp re_mkfs true false 4])
  /\ Runtime.RegExp_test 0 (lit "mkfs") [Runtime.mkRegExp re_mkfs true false 4]
     = Some (false, [Runtime.mkRegExp re_mkfs true false 0]).
Proof. split; vm_compute; reflexivity. Qed.

(** C8. The tool keeps no state between calls.  On any store of
    objects a call returns the result that depends on the command alone
    and leaves every object as it was, its own eleven patterns, tested
    once and without flags, added behind them.  So in a run of
    invocations interleaved with anything else, whatever that does to
    the objects, every invocation returns that result, and two
    invocations with the same command return the same record: the same
    risks, the same [hasDanger], the same instruction. *)
Theorem invocations_agree (run : list Runtime.Activity) (st : Runtime.Store) :
  (forall command,
      Runtime.execute command st = Some (dangerCheck command, st ++ Runtime.garbage))
  /\ Runtime.serve run st
     = map (fun c => Some (dangerCheck c)) (Runtime.invoked run)
  /\ (forall i j c,
        nth_error (Runtime.invoked run) i = Some c ->
        nth_error (Runtime.invoked run) j = Some c ->
        exists r,
          nth_error (Runtime.serve run st) i = Some (Some r)
          /\ nth_error (Runtime.serve run st) j = Some (Some r)
          /\ r = dangerCheck c).
Proof.
  split; [intro command; apply execute_spec |].
  split; [apply serve_spec |].
  intros i j c Hi Hj. exists (dangerCheck c).
  rewrite serve_spec, !nth_error_map, Hi, Hj. auto.
Qed.

Lemma invocations_agree_witness :
  exists r,
    nth_error
      (Runtime.serve
         [Runtime.Invoke (lit "rm -rf /");
          Runtime.Elsewhere (map (fun o => Runtime.mkRegExp (Runtime.source o) true true 7));
          Runtime.Invoke (lit "ls -la");
          Runtime.Elsewhere (fun _ => []);
          Runtime.Invoke (lit "rm -rf /")]
         [Runtime.mkRegExp re_mkfs true false 3]) 0
    = Some (Some r)
    /\ nth_error
         (Runtime.serve
            [Runtime.Invoke (lit "rm -rf /");
             Runtime.Elsewhere (map (fun o => Runtime.mkRegExp (Runtime.source o) true true 7));
             Runtime.Invoke (lit "ls -la");
             Runtime.Elsewhere (fun _ => []);
             Runtime.Invoke (lit "rm -rf /")]
            [Runtime.mkRegExp re_mkfs true false 3]) 2
       = Some (Some r)
    /\ r = dangerCheck (lit "rm -rf /").
Proof.
  apply (proj2 (proj2 (invocations_agree
           [Runtime.Invoke (lit "rm -rf /");
            Runtime.Elsewhere (map (fun o => Runtime.mkRegExp (Runtime.source o) true true 7));
            Runtime.Invoke (lit "ls -la");
            Runtime.Elsewhere (fun _ => []);
            Runtime.Invoke (lit "rm -rf /")]
           [Runtime.mkRegExp re_mkfs true false 3])) 0 2 (lit "rm -rf /")).
  - reflexivity.
  - reflexivity.
Defined.

(** C3, as the specification words it, fails: on [chmod -R 777 /tmp] the
    [chmod] pattern matches and the only risk has the reason
    "Removes all file permissions security", not
    "Removes all file permission security". *)
Lemma chmod_reason_differs :
  test re_chmod (lit "chmod -R 777 /tmp") = true
  /\ risks (dangerCheck (lit "chmod -R 777 /tmp")) = [chmod_777]
  /\ ~ In (mkRisk (lit "high") (lit "Removes all file permission security"))
         (risks (dangerCheck (lit "chmod -R 777 /tmp"))).
Proof.
  split; [vm_compute; reflexivity |]. split; [vm_compute; reflexivity |].
  intro H. vm_compute in H. destruct H as [H | []]. discriminate H.
Qed.

(** C3, amended. For every command that the [chmod -R 777] signature
    matches, the finding this signature produces has the risk "high" and
    the reason "Removes all file permissions security", and it is among
    the risks of the result. *)
Theorem chmod_finding (cmd : jsstring) (p : DangerSignature) :
  In p dangerousPatterns -> pattern p = re_chmod -> test (pattern p) cmd = true ->
  finding_of p = mkRisk (lit "high") (lit "Removes all file permissions security")
  /\ In (mkRisk (lit "high") (lit "Removes all file permissions security"))
        (risks (dangerCheck cmd)).
Proof.
  intros Hin Hp Ht. pose proof (table_chmod Hin Hp) as E. split; [exact E |].
  change (In chmod_777 (risks (dangerCheck cmd))). rewrite <- E.
  now apply fires_In.
Qed.

Lemma chmod_finding_witness :
  In (mkRisk (lit "high") (lit "Removes all file permissions security"))
     (risks (dangerCheck (lit "chmod -R 777 /tmp"))).
Proof.
  apply (@chmod_finding (lit "chmod -R 777 /tmp")
           (mkSig re_chmod (lit "high") (lit "Removes all file permissions security"))).
  - unfold dangerousPatterns. simpl. tauto.
  - reflexivity.
  - vm_compute. reflexivity.
Defined.

(** C4. When there are risks, the instruction is, line by line: the
    headline that restates the command, a blank line, "Risks found:",
    one line [- [LEVEL] reason] per risk in the order of [risks] with
    the level in upper case, a blank line, "Provide:" and the four
    numbered sections.  When there is none it is the acknowledgment that
    restates the command, a blank line, "However, always:" and the four
    numbered reminders. *)
Theorem instruction_layout (cmd : jsstring) :
  (risks (dangerCheck cmd) <> [] ->
   instruction (dangerCheck cmd)
   = join LF (Spec.danger_guidance cmd (risks (dangerCheck cmd))))
  /\ (risks (dangerCheck cmd) = [] ->
      instruction (dangerCheck cmd) = join LF (Spec.safe_guidance cmd)).
Proof.
  rewrite instruction_eq. split; intro H.
  - assert (Hlen : (0 <? length (risks (dangerCheck cmd))) = true).
    { apply Nat.ltb_lt. destruct (risks (dangerCheck cmd)); [congruence | simpl; lia]. }
    rewrite Hlen. unfold Spec.danger_guidance, Spec.danger_sections.
    rewrite join_listing by (destruct (risks (dangerCheck cmd)); simpl; congruence).
    unfold danger_instruction. rewrite <- !app_assoc.
    replace (map Spec.finding_line (risks (dangerCheck cmd)))
      with (map risk_line (risks (dangerCheck cmd))); [reflexivity |].
    apply map_ext_in. intros f Hf. apply In_risks in Hf as (p & Hin & _ & ->).
    unfold risk_line, Spec.finding_line. simpl risk. now rewrite table_upper.
  - rewrite H. simpl length. simpl Nat.ltb.
    unfold Spec.safe_guidance, Spec.safety_reminders. rewrite join_notice.
    unfold safe_instruction. now rewrite <- !app_assoc.
Qed.

Lemma instruction_layout_witness :
  instruction (dangerCheck (lit "rm -rf /"))
  = join LF (Spec.danger_guidance (lit "rm -rf /") [root_delete; force_delete])
  /\ map Spec.finding_line [root_delete; force_delete]
     = [ lit "- [CRITICAL] Deletes root filesystem";
         lit "- [HIGH] Recursive force delete without confirmation" ]
  /\ instruction (dangerCheck (lit "ls -la")) = join LF (Spec.safe_guidance (lit "ls -la")).
Proof.
  split; [| split].
  - apply (proj1 (instruction_layout (lit "rm -rf /"))). vm_compute. discriminate.
  - vm_compute. reflexivity.
  - apply (proj2 (instruction_layout (lit "ls -la"))). vm_compute. reflexivity.
Defined.

(** C5. Every command that contains the fork-bomb idiom
    [:(){ :|:& };:] is reported as dangerous, with the critical risk
    "Fork bomb - crashes system" among its risks. *)
Theorem fork_bomb_flagged (cmd : jsstring) :
  includes cmd fork_bomb_idiom ->
  hasDanger (dangerCheck cmd) = true
  /\ In (mkRisk (lit "critical") (lit "Fork bomb - crashes system"))
        (risks (dangerCheck cmd)).
Proof.
  intro H.
  assert (Hin : In fork_bomb (risks (dangerCheck cmd))).
  { apply (@fires_In cmd (mkSig re_fork_bomb (lit "critical") (lit "Fork bomb - crashes system"))).
    - unfold dangerousPatterns. simpl. tauto.
    - simpl pattern. apply (test_includes _ H). vm_compute. reflexivity. }
  split; [now apply hasDanger_In with fork_bomb | exact Hin].
Qed.

Lemma fork_bomb_flagged_witness :
  hasDanger (dangerCheck (lit "echo start; :(){ :|:& };: # never run this")) = true
  /\ In (mkRisk (lit "critical") (lit "Fork bomb - crashes system"))
        (risks (dangerCheck (lit "echo start; :(){ :|:& };: # never run this"))).
Proof.
  apply fork_bomb_flagged.
  exists (lit "echo start; "), (lit " # never run this"). reflexivity.
Defined.




(** Outside that spelling the signature is silent: with the flags in the
    other order no signature of the table matches. *)
Example rm_fr_not_flagged :
  risks (dangerCheck (lit "rm -fr /home/user")) = []
  /\ hasDanger (dangerCheck (lit "rm -fr /home/user")) = false.
Proof. split; vm_compute; reflexivity. Qed.

(** C10. No risk returned by the tool has the level "low": the level of
    every risk is "medium", "high" or "critical". *)
Theorem no_low_risk (cmd : jsstring) (f : RiskFinding) :
  In f (risks (dangerCheck cmd)) ->
  risk f <> lit "low"
  /\ (risk f = lit "medium" \/ risk f = lit "high" \/ risk f = lit "critical").
Proof.
  intro H. apply In_risks in H as (p & Hin & _ & ->). simpl risk.
  pose proof (table_levels Hin) as Hl. split; [| exact Hl].
  destruct Hl as [-> | [-> | ->]]; discriminate.
Qed.

Lemma no_low_risk_witness :
  risk (mkRisk (lit "medium") (lit "Recursive ownership change")) <> lit "low"
  /\ (risk (mkRisk (lit "medium") (lit "Recursive ownership change")) = lit "medium"
      \/ risk (mkRisk (lit "medium") (lit "Recursive ownership change")) = lit "high"
      \/ risk (mkRisk (lit "medium") (lit "Recursive ownership change")) = lit "critical").
Proof.
  apply (@no_low_risk (lit "chown -R user:user /data")).
  vm_compute. left. reflexivity.
Defined.

(** * Beyond the claims: what fires a signature, and what does not *)

Section Inversion.

Lemma Lang_seq_cons_inv (p : RegExp) (ps : list RegExp) (w : jsstring) :
  Lang (seq (p :: ps)) w ->
  exists s t, w = s ++ t /\ Lang p s /\ Lang (seq ps) t.
Proof. simpl. intro H. inversion H; subst. eauto. Qed.

Lemma Lang_seq_nil_inv (w : jsstring) : Lang (seq []) w -> w = [].
Proof. simpl. intro H. now inversion H. Qed.

Lemma Lang_chars_inv (s : string) (w : jsstring) : Lang (chars s) w -> w = lit s.
Proof.
  unfold chars. revert w. induction s as [| a s IH]; intros w H; simpl in H.
  - now inversion H.
  - inversion H as [| | p q s1 t H1 H2 | | | |]; subst.
    inversion H1 as [| k c Hc | | | | |]; subst. simpl in Hc.
    apply N.eqb_eq in Hc. subst c. simpl. f_equal. now apply IH.
Qed.

Lemma Lang_star_atom_inv (k : CharClass) (w : jsstring) :
  Lang (Star (Atom k)) w -> Forall (fun c => class_test k c = true) w.
Proof.
  intro H. remember (Star (Atom k)) as r eqn:Er.
  induction H; try discriminate.
  - constructor.
  - injection Er as ->. inversion H; subst. constructor; auto.
Qed.

Lemma Lang_plus_atom_inv (k : CharClass) (w : jsstring) :
  Lang (Plus (Atom k)) w -> w <> [] /\ Forall (fun c => class_test k c = true) w.
Proof.
  unfold Plus. intro H. inversion H as [| | p q s t H1 H2 | | | |]; subst.
  inversion H1; subst. split; [discriminate |].
  constructor; auto. now apply Lang_star_atom_inv.
Qed.

Lemma Lang_opt_inv (p : RegExp) (w : jsstring) : Lang (Opt p) w -> w = [] \/ Lang p w.
Proof.
  unfold Opt. intro H. inversion H; subst; auto.
  match goal with X : Lang Empty _ |- _ => inversion X end. auto.
Qed.

Lemma Lang_star_atom (k : CharClass) (w : jsstring) :
  Forall (fun c => class_test k c = true) w -> Lang (Star (Atom k)) w.
Proof.
  induction 1 as [| c w Hc _ IH].
  - constructor.
  - change (c :: w) with ([c] ++ w). constructor; auto. now constructor.
Qed.

End Inversion.

Ltac split_seq H :=
  repeat match type of H with
         | Lang (seq (_ :: _)) _ =>
             let s := fresh "s" in
             let t := fresh "t" in
             let Hs := fresh "Hs" in
             let Ht := fresh "Ht" in
             apply Lang_seq_cons_inv in H as (s & t & -> & Hs & Ht);
             rename Ht into H
         | Lang (seq []) _ => apply Lang_seq_nil_inv in H; subst
         end.

Ltac table_entry H :=
  unfold dangerousPatterns in H; simpl in H;
  repeat (destruct H as [H | H]; [subst |]); [.. | destruct H].

Section Firing.

Variable cmd : jsstring.

Lemma test_in_context (r : RegExp) (pre suf : jsstring) :
  test r cmd = true -> test r (pre ++ cmd ++ suf) = true.
Proof.
  intro H. apply test_spec in H as (a & mid & b & -> & HL).
  apply test_spec. exists (pre ++ a), mid, (b ++ suf). split; auto.
  now rewrite <- !app_assoc.
Qed.

Lemma root_delete_source (p : DangerSignature) :
  In p dangerousPatterns -> root_delete = finding_of p -> pattern p = re_rm_root.
Proof. intros H E. table_entry H; try reflexivity; vm_compute in E; discriminate E. Qed.

Lemma mkfs_source (p : DangerSignature) :
  In p dangerousPatterns ->
  mkRisk (lit "critical") (lit "Formats filesystem, destroys all data") = finding_of p ->
  pattern p = re_mkfs.
Proof. intros H E. table_entry H; try reflexivity; vm_compute in E; discriminate E. Qed.

Lemma remote_script_source (p : DangerSignature) :
  In p dangerousPatterns -> remote_script = finding_of p ->
  pattern p = re_curl \/ pattern p = re_wget.
Proof.
  intros H E. table_entry H; auto; vm_compute in E; discriminate E.
Qed.

Lemma rm_root_matches (rest : jsstring) :
  Spec.recursive_delete cmd (lit "/" ++ rest) -> test re_rm_root cmd = true.
Proof.
  intros (pre & gap1 & flag & gap2 & Hg1 & Hg2 & Hflag & ->).
  apply test_spec.
  exists pre, (lit "rm" ++ gap1 ++ flag ++ gap2 ++ lit "/"), rest.
  split; [now rewrite <- !app_assoc |].
  assert (Hopt : exists f, flag = lit "-r" ++ f /\ Lang (Opt (chars "f")) f).
  { destruct Hflag as [-> | ->].
    - exists []. split; [reflexivity | apply Lang_opt_skip].
    - exists (lit "f"). split; [reflexivity | apply Lang_opt_take, Lang_chars]. }
  destruct Hopt as (f & -> & Hf).
  change (Lang re_rm_root (concat [lit "rm"; gap1; lit "-r"; f; gap2; lit "/"])).
  unfold re_rm_root. apply Lang_seq.
  repeat (apply Forall2_cons || apply Forall2_nil);
    auto using Lang_chars, Lang_plus_blank.
Qed.

Lemma rm_root_shape :
  test re_rm_root cmd = true -> exists rest, Spec.recursive_delete cmd (lit "/" ++ rest).
Proof.
  intro H. apply test_spec in H as (pre & mid & suf & -> & HL).
  unfold re_rm_root in HL. split_seq HL.
  apply Lang_chars_inv in Hs, Hs1, Hs4. subst.
  apply Lang_plus_atom_inv in Hs0, Hs3.
  apply Lang_opt_inv in Hs2.
  exists suf, pre, s0, (lit "-r" ++ s2), s3. repeat split.
  - apply Hs0.
  - apply Hs0.
  - apply Hs3.
  - apply Hs3.
  - destruct Hs2 as [-> | Hf]; [now left |].
    apply Lang_chars_inv in Hf. subst. now right.
  - rewrite <- !app_assoc. reflexivity.
Qed.

End Firing.

Section Context.

Lemma filter_length_mono (A : Type) (f g : A -> bool) (l : list A) :
  (forall x, In x l -> f x = true -> g x = true) ->
  length (filter f l) <= length (filter g l).
Proof.
  induction l as [| x l IH]; intro H; simpl; [lia |].
  assert (IH' : length (filter f l) <= length (filter g l))
    by (apply IH; intros y Hy; apply H; now right).
  destruct (f x) eqn:Ef.
  - rewrite (H x (or_introl eq_refl) Ef). simpl. lia.
  - destruct (g x); simpl; lia.
Qed.

(** X1. Whatever is written before or after a command, every risk of
    the command is still reported for the longer command line: no risk
    is lost, the number of risks does not decrease, and a command found
    dangerous stays dangerous. *)
Theorem risks_survive_context (pre cmd suf : jsstring) :
  incl (risks (dangerCheck cmd)) (risks (dangerCheck (pre ++ cmd ++ suf)))
  /\ length (risks (dangerCheck cmd)) <= length (risks (dangerCheck (pre ++ cmd ++ suf)))
  /\ Bool.le (hasDanger (dangerCheck cmd)) (hasDanger (dangerCheck (pre ++ cmd ++ suf))).
Proof.
  assert (Hincl : incl (risks (dangerCheck cmd)) (risks (dangerCheck (pre ++ cmd ++ suf)))).
  { intros f Hf. apply In_risks in Hf as (p & Hin & Ht & ->).
    apply fires_In; auto. now apply test_in_context. }
  split; [exact Hincl |]. split.
  - rewrite !risks_eq, !length_map. apply filter_length_mono.
    intros p _. unfold fires. apply test_in_context.
  - destruct (hasDanger (dangerCheck cmd)) eqn:E; simpl; auto.
    rewrite hasDanger_eq in E. apply Nat.ltb_lt in E.
    destruct (risks (dangerCheck cmd)) as [| f rs] eqn:Er; [simpl in E; lia |].
    apply hasDanger_In with f. apply Hincl. now left.
Qed.

(** X2. The critical risk "Deletes root filesystem" is reported exactly
    when the command contains [rm], blanks, [-r] or [-rf], blanks and a
    slash: no other spelling of a recursive delete is recognised. *)
Theorem root_delete_exactly (cmd : jsstring) :
  In root_delete (risks (dangerCheck cmd)) <->
  exists rest, Spec.recursive_delete cmd (lit "/" ++ rest).
Proof.
  split.
  - intro H. apply In_risks in H as (p & Hin & Ht & E).
    rewrite (root_delete_source Hin E) in Ht. now apply rm_root_shape.
  - intros (rest & H).
    apply (@fires_In cmd (mkSig re_rm_root (lit "critical") (lit "Deletes root filesystem"))).
    + unfold dangerousPatterns. simpl. tauto.
    + now apply rm_root_matches with rest.
Qed.

(** X3. The critical risk "Formats filesystem, destroys all data" is
    reported exactly when the four characters [mkfs] occur somewhere in
    the command, as a command name or not. *)
Theorem mkfs_exactly (cmd : jsstring) :
  In (mkRisk (lit "critical") (lit "Formats filesystem, destroys all data"))
     (risks (dangerCheck cmd))
  <-> includes cmd (lit "mkfs").
Proof.
  split.
  - intro H. apply In_risks in H as (p & Hin & Ht & E).
    rewrite (mkfs_source Hin E) in Ht.
    apply test_spec in Ht as (pre & mid & suf & -> & HL).
    apply Lang_chars_inv in HL. subst. now exists pre, suf.
  - intro H.
    apply (@fires_In cmd (mkSig re_mkfs (lit "critical")
                            (lit "Formats filesystem, destroys all data"))).
    + unfold dangerousPatterns. simpl. tauto.
    + simpl pattern. apply (test_includes _ H). vm_compute. reflexivity.
Qed.

Lemma fetch_pipe_shape (tool : string) (cmd : jsstring) :
  test (seq [chars tool; Star any; chars "|"; Star ws; Opt (chars "ba"); chars "sh"]) cmd = true
  <->
  exists pre line gap shell suf,
    cmd = pre ++ lit tool ++ line ++ lit "|" ++ gap ++ shell ++ suf
    /\ Forall (fun c => is_line_terminator c = false) line
    /\ Forall (fun c => is_space c = true) gap
    /\ (shell = lit "sh" \/ shell = lit "bash").
Proof.
  split.
  - intro H. apply test_spec in H as (pre & mid & suf & -> & HL).
    split_seq HL.
    apply Lang_chars_inv in Hs, Hs1, Hs4. subst.
    apply Lang_star_atom_inv in Hs0, Hs2. apply Lang_opt_inv in Hs3.
    exists pre, s0, s2, (s3 ++ lit "sh"), suf. repeat split.
    + now rewrite <- !app_assoc.
    + eapply Forall_impl; [| exact Hs0]. simpl. intros c Hc.
      now apply negb_true_iff in Hc.
    + exact Hs2.
    + destruct Hs3 as [-> | Hb]; [now left |].
      apply Lang_chars_inv in Hb. subst. now right.
  - intros (pre & line & gap & shell & suf & -> & Hline & Hgap & Hshell).
    apply test_spec. exists pre, (lit tool ++ line ++ lit "|" ++ gap ++ shell), suf.
    split; [now rewrite <- !app_assoc |].
    assert (Hopt : exists b, shell = b ++ lit "sh" /\ Lang (Opt (chars "ba")) b).
    { destruct Hshell as [-> | ->].
      - exists []. split; [reflexivity | apply Lang_opt_skip].
      - exists (lit "ba"). split; [reflexivity | apply Lang_opt_take, Lang_chars]. }
    destruct Hopt as (b & -> & Hb).
    replace (lit tool ++ line ++ lit "|" ++ gap ++ b ++ lit "sh")
      with (concat [lit tool; line; lit "|"; gap; b; lit "sh"])
      by reflexivity.
    apply Lang_seq.
    repeat (apply Forall2_cons || apply Forall2_nil); auto using Lang_chars.
    + apply Lang_star_atom. eapply Forall_impl; [| exact Hline].
      simpl. intros c Hc. now rewrite Hc.
    + now apply Lang_star_atom.
Qed.

(** X4. The risk "Executes remote script without review" is reported
    exactly when the command contains [curl] or [wget], later on the
    same line a pipe, and right after the pipe, blanks apart, the
    letters [sh] or [bash], whatever comes after them. *)
Theorem remote_script_exactly (cmd : jsstring) :
  In remote_script (risks (dangerCheck cmd)) <->
  exists pre tool line gap shell suf,
    cmd = pre ++ tool ++ line ++ lit "|" ++ gap ++ shell ++ suf
    /\ (tool = lit "curl" \/ tool = lit "wget")
    /\ Forall (fun c => is_line_terminator c = false) line
    /\ Forall (fun c => is_space c = true) gap
    /\ (shell = lit "sh" \/ shell = lit "bash").
Proof.
  split.
  - intro H. apply In_risks in H as (p & Hin & Ht & E).
    destruct (remote_script_source Hin E) as [Hp | Hp]; rewrite Hp in Ht.
    + apply (fetch_pipe_shape "curl") in Ht as (pre & line & gap & shell & suf & H).
      exists pre, (lit "curl"), line, gap, shell, suf. tauto.
    + apply (fetch_pipe_shape "wget") in Ht as (pre & line & gap & shell & suf & H).
      exists pre, (lit "wget"), line, gap, shell, suf. tauto.
  - intros (pre & tool & line & gap & shell & suf & Hc & [-> | ->] & Hl & Hg & Hs).
    + apply (@fires_In cmd (mkSig re_curl (lit "high")
                              (lit "Executes remote script without review"))).
      * unfold dangerousPatterns. simpl. tauto.
      * apply (fetch_pipe_shape "curl"). exists pre, line, gap, shell, suf. tauto.
    + apply (@fires_In cmd (mkSig re_wget (lit "high")
                              (lit "Executes remote script without review"))).
      * unfold dangerousPatterns. simpl. tauto.
      * apply (fetch_pipe_shape "wget"). exists pre, line, gap, shell, suf. tauto.
Qed.

End Context.

(** * Beyond the claims: the other tools *)

Section OtherTools.

(** X5. In [suggestCommand] and [fixError] an optional argument that is
    omitted and one that is the empty string give the same result; the
    [distro] and [context] of a result are never empty: they are the
    argument when it is not empty, and otherwise "generic" and
    "unknown". *)
Theorem optional_argument_defaults (text : jsstring) (given : option jsstring) :
  Suggest.suggestCommand text None = Suggest.suggestCommand text (Some [])
  /\ Fix.fixError text None = Fix.fixError text (Some [])
  /\ Suggest.distro (Suggest.suggestCommand text given) <> []
  /\ Fix.context (Fix.fixError text given) <> []
  /\ Suggest.distro (Suggest.suggestCommand text given)
     = match given with Some (c :: d) => c :: d | _ => lit "generic" end
  /\ Fix.context (Fix.fixError text given)
     = match given with Some (c :: d) => c :: d | _ => lit "unknown" end.
Proof.
  repeat split; try reflexivity;
    destruct given as [[| c d] |]; simpl; try discriminate; reflexivity.
Qed.

(** X6. The instruction of [suggestCommand] and of [fixError] does not
    tell an optional argument from the same words typed at the end of
    the first argument: both calls build the same instruction. *)
Theorem optional_argument_in_instruction (text extra : jsstring) :
  extra <> [] ->
  Suggest.instruction (Suggest.suggestCommand text (Some extra))
  = Suggest.instruction
      (Suggest.suggestCommand (text ++ lit " (for " ++ extra ++ lit ")") None)
  /\ Fix.instruction (Fix.fixError text (Some extra))
     = Fix.instruction
         (Fix.fixError (text ++ lit " (Context: " ++ extra ++ lit ")") None).
Proof.
  intro H. destruct extra as [| c d]; [congruence |].
  unfold Suggest.suggestCommand, Fix.fixError. cbn [Suggest.instruction Fix.instruction].
  unfold Suggest.for_distro, Fix.in_context. cbn [truthy].
  split; now rewrite <- !app_assoc, app_nil_l.
Qed.

Lemma optional_argument_in_instruction_witness :
  Suggest.instruction (Suggest.suggestCommand (lit "list open ports") (Some (lit "arch")))
  = Suggest.instruction (Suggest.suggestCommand (lit "list open ports (for arch)") None)
  /\ Fix.instruction (Fix.fixError (lit "Permission denied") (Some (lit "running make")))
     = Fix.instruction
         (Fix.fixError (lit "Permission denied (Context: running make)") None).
Proof.
  split.
  - apply (proj1 (@optional_argument_in_instruction
                    (lit "list open ports") (lit "arch") ltac:(discriminate))).
  - apply (proj2 (@optional_argument_in_instruction
                    (lit "Permission denied") (lit "running make") ltac:(discriminate))).
Defined.

End OtherTools.

(** * Beyond the claims: the chat client *)

Import App.

Section Queue.

Lemma lastMessage_snoc (l : list Message) (x : Message) : lastMessage (l ++ [x]) = Some x.
Proof. unfold lastMessage. now rewrite rev_unit. Qed.

Lemma change_last_snoc (f : Message -> Message) (l : list Message) (x : Message) :
  change_last f (l ++ [x]) = l ++ [f x].
Proof.
  unfold change_last. rewrite rev_unit. simpl. now rewrite rev_involutive.
Qed.

Lemma next_messages_queue (current : jsstring) (u : MessagesUpdate) (h : Hook) :
  next_messages current (setMessages u h) = apply_update current u (next_messages current h).
Proof. unfold next_messages. simpl. now rewrite fold_left_app. Qed.

Lemma settle_queue (A : Type) (queued : list A) (shown v : A) :
  settle (queued ++ [v]) shown = v.
Proof. unfold settle. now rewrite fold_left_app. Qed.

Lemma run_app (t1 t2 : list Action) (h : Hook) : run (t1 ++ t2) h = run t2 (run t1 h).
Proof. unfold run. apply fold_left_app. Qed.

Lemma events_app (t1 t2 : list Action) : events (t1 ++ t2) = events t1 ++ events t2.
Proof. unfold events. apply filter_app. Qed.

Lemma events_cons_inv (t : list Action) (e : Action) (es : list Action) :
  events t = e :: es ->
  exists t1 t2, t = t1 ++ e :: t2 /\ events t1 = [] /\ events t2 = es
                /\ is_render e = false.
Proof.
  induction t as [| a t IH]; [discriminate |].
  unfold events. simpl. destruct (is_render a) eqn:Ea; simpl; intro H.
  - destruct (IH H) as (t1 & t2 & -> & H1 & H2 & He).
    exists (a :: t1), t2. repeat split; auto.
    unfold events. simpl. now rewrite Ea.
  - injection H as -> H. exists [], t. repeat split; auto.
Qed.

Lemma events_app_inv (es1 es2 : list Action) :
  forall t, events t = es1 ++ es2 ->
  exists t1 t2, t = t1 ++ t2 /\ events t1 = es1 /\ events t2 = es2.
Proof.
  induction es1 as [| e es1 IH]; intros t H.
  - exists [], t. auto.
  - apply events_cons_inv in H as (ta & tb & -> & Ha & Hb & He).
    destruct (IH tb Hb) as (t1 & t2 & -> & H1 & H2).
    exists (ta ++ e :: t1), t2. repeat split.
    + now rewrite <- app_assoc.
    + rewrite events_app, Ha. unfold events. simpl. rewrite He. simpl.
      f_equal. exact H1.
    + exact H2.
Qed.

(** What every render keeps is kept by any number of renders. *)
Lemma renders_only (P : Hook -> Prop) :
  (forall h, P h -> P (render h)) ->
  forall t h, events t = [] -> P h -> P (run t h).
Proof.
  intros HP. induction t as [| a t IH]; intros h Ht Hh; [exact Hh |].
  unfold events in Ht. simpl in Ht. destruct a; simpl in Ht; try discriminate.
  simpl. apply IH; auto.
Qed.

End Queue.

Section Exchange.

Variable shown : list Message.
Hypothesis shown_settled : streaming (lastMessage shown) = false.

Lemma streaming_view_render (started : bool) (h : Hook) :
  streaming_view shown started h -> streaming_view shown started (render h).
Proof.
  intros H current. destruct (H (streamingContentRef h)) as (text & E & Ht).
  exists text. split; [exact E |]. right. simpl. tauto.
Qed.

Lemma streaming_view_chunk (started : bool) (c : jsstring) (h : Hook) :
  streaming_view shown started h ->
  streaming_view shown true (onmessage (stream c) h).
Proof.
  intros H current. destruct (H current) as (text & E & _).
  exists current. split; [| now left].
  unfold onmessage. rewrite next_messages_queue.
  change (next_messages current (setStreamingContent (streamingContentRef h ++ c) h))
    with (next_messages current h).
  rewrite E. unfold apply_update. destruct started; cbv iota.
  - rewrite lastMessage_snoc. simpl streaming. cbv iota.
    now rewrite change_last_snoc.
  - rewrite app_nil_r, shown_settled. reflexivity.
Qed.

(** The chunks of a reply, with renders anywhere between them. *)
Lemma streaming_phase (cs : list jsstring) :
  forall (started : bool) (t : list Action) (h : Hook),
    events t = map (fun c => Receive (stream c)) cs ->
    streaming_view shown started h ->
    let h' := run t h in
    streaming_view shown (started || match cs with [] => false | _ :: _ => true end) h'
    /\ streamingContentRef h' = streamingContentRef h ++ concat cs
    /\ sent h' = sent h
    /\ settle (pendingLoading h') (isLoading h') = settle (pendingLoading h) (isLoading h).
Proof.
  induction cs as [| c cs IH]; intros started t h Ht Hv; simpl in Ht.
  - rewrite orb_false_r, app_nil_r.
    apply (@renders_only
             (fun x => streaming_view shown started x
                       /\ streamingContentRef x = streamingContentRef h
                       /\ sent x = sent h
                       /\ settle (pendingLoading x) (isLoading x)
                          = settle (pendingLoading h) (isLoading h))); auto.
    intros x (Hx & Hr & Hs & Hl). repeat split; auto.
    now apply streaming_view_render.
  - apply events_cons_inv in Ht as (t1 & t2 & -> & H1 & H2 & _).
    intro h'. subst h'. rewrite run_app. simpl run.
    change (fold_left step t2 (step (run t1 h) (Receive (stream c))))
      with (run t2 (onmessage (stream c) (run t1 h))).
    assert (Hpre : streaming_view shown started (run t1 h)
                   /\ streamingContentRef (run t1 h) = streamingContentRef h
                   /\ sent (run t1 h) = sent h
                   /\ settle (pendingLoading (run t1 h)) (isLoading (run t1 h))
                      = settle (pendingLoading h) (isLoading h)).
    { apply (@renders_only
               (fun x => streaming_view shown started x
                         /\ streamingContentRef x = streamingContentRef h
                         /\ sent x = sent h
                         /\ settle (pendingLoading x) (isLoading x)
                            = settle (pendingLoading h) (isLoading h))); auto.
      intros x (Hx & Hr & Hs & Hl). repeat split; auto.
      now apply streaming_view_render. }
    destruct Hpre as (Hv1 & Hr1 & Hs1 & Hl1).
    destruct (IH true t2 (onmessage (stream c) (run t1 h)) H2
                (streaming_view_chunk c Hv1)) as (Hv2 & Hr2 & Hs2 & Hl2).
    rewrite orb_true_r. repeat split.
    + exact Hv2.
    + etransitivity; [exact Hr2 |]. simpl. rewrite Hr1. now rewrite <- app_assoc.
    + etransitivity; [exact Hs2 | exact Hs1].
    + etransitivity; [exact Hl2 | exact Hl1].
Qed.

End Exchange.

Section Chat.

Variables (h : Hook) (q : jsstring).
Hypothesis socket_open : isOpen h = true.
Hypothesis nothing_queued : pendingMessages h = [].

Let asked : list Message := messages h ++ [mkMessage user q None].

Lemma asked_settled : streaming (lastMessage asked) = false.
Proof. unfold asked. now rewrite lastMessage_snoc. Qed.

(** Up to the call of [sendMessage] and through it. *)
Lemma send_phase (trace rest : list Action) :
  events trace = SendMessage q :: rest ->
  exists t' h1,
    run trace h = run t' h1 /\ events t' = rest
    /\ streaming_view asked false h1
    /\ streamingContentRef h1 = []
    /\ sent h1 = sent h ++ [chat q].
Proof.
  intro Ht. apply events_cons_inv in Ht as (t0 & t' & -> & H0 & H' & _).
  assert (Hidle : isOpen (run t0 h) = true /\ pendingMessages (run t0 h) = []
                  /\ messages (run t0 h) = messages h /\ sent (run t0 h) = sent h).
  { apply (@renders_only
             (fun x => isOpen x = true /\ pendingMessages x = []
                       /\ messages x = messages h /\ sent x = sent h)); auto.
    intros x (Ho & Hp & Hm & Hs). repeat split; auto.
    simpl. unfold next_messages. now rewrite Hp. }
  destruct Hidle as (Ho & Hp & Hm & Hs).
  exists t', (sendMessage q (run t0 h)). split; [now rewrite run_app |].
  split; [exact H' |]. unfold sendMessage. rewrite Ho. repeat split.
  - intro current. exists current. split; [| now left].
    unfold next_messages. simpl. rewrite Hp. simpl. rewrite Hm.
    now rewrite app_nil_r.
  - simpl. now rewrite Hs.
Qed.

(** X8. After [sendMessage] and any number of chunks of the reply, at
    least one, the render that follows shows the messages there were,
    the question, and one streaming message of the assistant that holds
    the chunks received so far, in order; whenever React rendered in
    between. *)
Theorem stream_shows_chunks (cs : list jsstring) (trace : list Action) :
  cs <> [] ->
  events trace = SendMessage q :: map (fun c => Receive (stream c)) cs ->
  messages (run (trace ++ [Render]) h)
  = messages h ++ [mkMessage user q None; mkMessage assistant (concat cs) (Some true)].
Proof.
  intros Hcs Ht. destruct (@send_phase trace _ Ht) as (t' & h1 & E1 & H' & Hv & Hr & _).
  rewrite run_app, E1. clear E1.
  destruct (@streaming_phase asked asked_settled cs false t' h1 H' Hv) as (Hv2 & Hr2 & _).
  simpl.
  destruct (Hv2 (streamingContentRef (run t' h1))) as (text & E & Htext).
  rewrite E. destruct cs as [| c cs']; [congruence |]. simpl orb. cbv iota.
  assert (text = concat (c :: cs')) as ->.
  { rewrite Hr2, Hr in Htext. simpl in Htext. tauto. }
  unfold asked. now rewrite <- app_assoc.
Qed.

(** X9. A whole exchange: [sendMessage], the chunks of the reply, then
    [done].  After the render that follows, the list is the messages
    there were, the question and, if at least one chunk came, the reply
    as [done] carries it, no longer streaming; with no chunk at all the
    reply is not shown.  [isLoading] is false again and one [chat]
    message was sent; whenever React rendered in between. *)
Theorem exchange_shows_reply (cs : list jsstring) (r : jsstring) (trace : list Action) :
  events trace
  = SendMessage q :: map (fun c => Receive (stream c)) cs ++ [Receive (done r)] ->
  messages (run (trace ++ [Render]) h)
  = messages h ++ mkMessage user q None
      :: match cs with [] => [] | _ :: _ => [mkMessage assistant r (Some false)] end
  /\ isLoading (run (trace ++ [Render]) h) = false
  /\ sent (run (trace ++ [Render]) h) = sent h ++ [chat q].
Proof.
  intro Ht. destruct (@send_phase trace _ Ht) as (t' & h1 & E1 & H' & Hv & Hr & Hs).
  rewrite run_app, E1. clear E1.
  apply events_app_inv in H' as (t1 & t2 & -> & H1 & H2).
  apply events_cons_inv in H2 as (ta & tb & -> & Ha & Hb & _).
  destruct (@streaming_phase asked asked_settled cs false t1 h1 H1 Hv) as (Hv2 & _ & Hs2 & _).
  set (started := match cs with [] => false | _ :: _ => true end) in *.
  simpl orb in Hv2.
  set (shown := asked ++ (if started then [mkMessage assistant r (Some false)] else [])).
  assert (Hmid : streaming_view asked started (run ta (run t1 h1))
                 /\ sent (run ta (run t1 h1)) = sent (run t1 h1)).
  { apply (@renders_only
             (fun x => streaming_view asked started x /\ sent x = sent (run t1 h1))); auto.
    intros x (Hx & Hsx). split; auto. now apply streaming_view_render. }
  destruct Hmid as (Hv3 & Hs3).
  set (hdone := onmessage (done r) (run ta (run t1 h1))).
  assert (Hdone : (forall current, next_messages current hdone = shown)
                  /\ settle (pendingLoading hdone) (isLoading hdone) = false
                  /\ sent hdone = sent (run t1 h1)).
  { repeat split.
    - intro current. destruct (Hv3 current) as (text & E & _).
      unfold hdone, onmessage.
      change (next_messages current
                (setIsLoading false
                   (setMessages (DoneUpdater r)
                      (setStreamingContent [] (run ta (run t1 h1))))))
        with (next_messages current
                (setMessages (DoneUpdater r) (run ta (run t1 h1)))).
      rewrite next_messages_queue, E. unfold apply_update, shown.
      destruct started; cbv iota.
      + rewrite lastMessage_snoc. simpl streaming. cbv iota.
        now rewrite change_last_snoc.
      + now rewrite app_nil_r, asked_settled.
    - unfold hdone. simpl. apply settle_queue.
    - unfold hdone. simpl. exact Hs3. }
  assert (Hend : (forall current, next_messages current (run tb hdone) = shown)
                 /\ settle (pendingLoading (run tb hdone)) (isLoading (run tb hdone)) = false
                 /\ sent (run tb hdone) = sent (run t1 h1)).
  { apply (@renders_only
             (fun x => (forall current, next_messages current x = shown)
                       /\ settle (pendingLoading x) (isLoading x) = false
                       /\ sent x = sent (run t1 h1))); auto.
    intros x (Hx & Hl & Hsx). repeat split; auto.
    intro current. apply (Hx (streamingContentRef x)). }
  destruct Hend as (Hm & Hl & Hse).
  assert (Efin : run (t1 ++ ta ++ Receive (done r) :: tb) h1 = run tb hdone)
    by (rewrite !run_app; reflexivity).
  rewrite Efin. repeat split.
  - change (messages (run [Render] (run tb hdone)))
      with (next_messages (streamingContentRef (run tb hdone)) (run tb hdone)).
    rewrite Hm. unfold shown, asked, started. rewrite <- app_assoc.
    destruct cs; reflexivity.
  - exact Hl.
  - etransitivity; [exact Hse |]. now rewrite Hs2.
Qed.

End Chat.

Lemma stream_shows_chunks_witness :
  messages
    (run ([Render; SendMessage (lit "how do I list files?"); Receive (stream (lit "Use "));
           Render; Receive (stream (lit "ls")); Receive (stream (lit " -la"))] ++ [Render])
       (run [Mount; Opened; Render] initial))
  = messages (run [Mount; Opened; Render] initial)
    ++ [mkMessage user (lit "how do I list files?") None;
        mkMessage assistant (concat [lit "Use "; lit "ls"; lit " -la"]) (Some true)].
Proof.
  apply (@stream_shows_chunks (run [Mount; Opened; Render] initial)
           (lit "how do I list files?") eq_refl eq_refl
           [lit "Use "; lit "ls"; lit " -la"]).
  - discriminate.
  - reflexivity.
Defined.

Lemma exchange_shows_reply_witness :
  messages
    (run ([SendMessage (lit "uptime?"); Receive (stream (lit "It shows"));
           Receive (stream (lit " the load")); Receive (done (lit "It shows the load."));
           Render] ++ [Render])
       (run [Mount; Opened; Render] initial))
  = messages (run [Mount; Opened; Render] initial)
    ++ [mkMessage user (lit "uptime?") None;
        mkMessage assistant (lit "It shows the load.") (Some false)]
  /\ isLoading
       (run ([SendMessage (lit "uptime?"); Receive (stream (lit "It shows"));
              Receive (stream (lit " the load")); Receive (done (lit "It shows the load."));
              Render] ++ [Render])
          (run [Mount; Opened; Render] initial)) = false
  /\ sent
       (run ([SendMessage (lit "uptime?"); Receive (stream (lit "It shows"));
              Receive (stream (lit " the load")); Receive (done (lit "It shows the load."));
              Render] ++ [Render])
          (run [Mount; Opened; Render] initial))
     = sent (run [Mount; Opened; Render] initial) ++ [chat (lit "uptime?")].
Proof.
  apply (@exchange_shows_reply (run [Mount; Opened; Render] initial)
           (lit "uptime?") eq_refl eq_refl
           [lit "It shows"; lit " the load"] (lit "It shows the load.")).
  reflexivity.
Defined.

Section History.

Variable h : Hook.

Let kept : list Message := removelast (messages h).

Lemma apply_update_tail (current : jsstring) (u : MessagesUpdate) (t : list Message) :
  (forall ms, u <> Value ms) -> (t = [] -> kept = []) ->
  exists t', apply_update current u (kept ++ t) = kept ++ t' /\ (t <> [] -> t' <> []).
Proof.
  intros Hu Ht.
  assert (Hmod : forall f, streaming (lastMessage (kept ++ t)) = true ->
                 exists t', change_last f (kept ++ t) = kept ++ t' /\ t' <> []).
  { intros f Hs. destruct t as [| x t0].
    - rewrite (Ht eq_refl) in Hs. discriminate Hs.
    - destruct (@exists_last _ (x :: t0) ltac:(discriminate)) as (t1 & y & E).
      rewrite E, app_assoc, change_last_snoc, <- app_assoc.
      exists (t1 ++ [f y]). split; auto. now destruct t1. }
  destruct u as [ms | | c | m]; simpl.
  - now destruct (Hu ms).
  - destruct (streaming (lastMessage (kept ++ t))) eqn:E.
    + destruct (Hmod (fun m => mkMessage (role m) current (isStreaming m)) eq_refl)
        as (t' & E' & Hne). exists t'. auto.
    + exists (t ++ [mkMessage assistant current (Some true)]).
      split; [now rewrite app_assoc |]. now destruct t.
  - destruct (streaming (lastMessage (kept ++ t))) eqn:E.
    + destruct (Hmod (fun m => mkMessage (role m) c (Some false)) eq_refl)
        as (t' & E' & Hne). exists t'. auto.
    + exists t. auto.
  - exists (t ++ [m]). split; [now rewrite app_assoc |]. now destruct t.
Qed.

Lemma apply_queue_tail (current : jsstring) (us : list MessagesUpdate) :
  forall t, (forall ms, ~ In (Value ms) us) -> (t = [] -> kept = []) ->
  exists t', fold_left (fun ms u => apply_update current u ms) us (kept ++ t) = kept ++ t'
             /\ (t <> [] -> t' <> []).
Proof.
  induction us as [| u us IH]; intros t Hus Ht; simpl.
  - exists t. auto.
  - destruct (@apply_update_tail current u t) as (t1 & E & Hne); auto.
    { intros ms ->. apply (Hus ms). now left. }
    rewrite E. destruct (IH t1) as (t2 & E2 & Hne2).
    + intros ms Hin. apply (Hus ms). now right.
    + intro Ht1. destruct t as [| x t0]; auto. now destruct (Hne ltac:(discriminate)).
    + exists t2. auto.
Qed.

Lemma kept_step (x : Hook) (a : Action) :
  replaces a = false ->
  (exists t, messages x = kept ++ t /\ (messages h <> [] -> t <> [])
             /\ forall ms, ~ In (Value ms) (pendingMessages x)) ->
  exists t, messages (step x a) = kept ++ t /\ (messages h <> [] -> t <> [])
            /\ forall ms, ~ In (Value ms) (pendingMessages (step x a)).
Proof.
  intros Ha (t & E & Hne & Hp).
  assert (Hadd : forall u y, (forall ms, u <> Value ms) ->
                   messages y = messages x ->
                   pendingMessages y = pendingMessages x ++ [u] ->
                   exists t, messages y = kept ++ t /\ (messages h <> [] -> t <> [])
                             /\ forall ms, ~ In (Value ms) (pendingMessages y)).
  { intros u y Hu Em Ep. exists t. rewrite Em, Ep. repeat split; auto.
    intros ms Hin. apply in_app_or in Hin as [Hin | [Hin | []]].
    - now apply (Hp ms).
    - now apply (Hu ms). }
  assert (Hsame : forall y, messages y = messages x ->
                    pendingMessages y = pendingMessages x ->
                    exists t, messages y = kept ++ t /\ (messages h <> [] -> t <> [])
                              /\ forall ms, ~ In (Value ms) (pendingMessages y)).
  { intros y Em Ep. exists t. rewrite Em, Ep. auto. }
  destruct a as [| | | | data | c | | v | |]; simpl in Ha.
  - now apply Hsame.
  - now apply Hsame.
  - now apply Hsame.
  - now apply Hsame.
  - destruct data as [ms | c | c | m | | | ty]; simpl in Ha; try discriminate Ha.
    + apply (Hadd StreamUpdater); [discriminate | reflexivity | reflexivity].
    + apply (Hadd (DoneUpdater c)); [discriminate | reflexivity | reflexivity].
    + apply (Hadd (Append (mkMessage assistant (warning_sign ++ lit " Error: " ++ m) None)));
        [discriminate | reflexivity | reflexivity].
    + now apply Hsame.
    + now apply Hsame.
  - change (step x (SendMessage c)) with (sendMessage c x).
    unfold sendMessage. destruct (isOpen x); [| now apply Hsame].
    apply (Hadd (Append (mkMessage user c None)));
      [discriminate | reflexivity | reflexivity].
  - change (step x ClearChat) with (clearChat x).
    unfold clearChat. destruct (isOpen x); now apply Hsame.
  - now apply Hsame.
  - change (step x Submit) with (handleSubmit x). unfold handleSubmit.
    destruct (truthy (trim (input x)) && negb (isLoading x)); [| now apply Hsame].
    unfold sendMessage. destruct (isOpen x); [| now apply Hsame].
    apply (Hadd (Append (mkMessage user (trim (input x)) None)));
      [discriminate | reflexivity | reflexivity].
  - change (step x Render) with (render x).
    destruct (@apply_queue_tail (streamingContentRef x) (pendingMessages x) t Hp)
      as (t' & E' & Hne').
    + intro Ht. destruct (messages h) as [| z l] eqn:Eh; [reflexivity |].
      now destruct (Hne ltac:(discriminate)).
    + exists t'. repeat split; auto.
      change (messages (render x)) with (next_messages (streamingContentRef x) x).
      unfold next_messages. rewrite E. exact E'.
Qed.

Lemma kept_run (trace : list Action) :
  forall x, Forall (fun a => replaces a = false) trace ->
  (exists t, messages x = kept ++ t /\ (messages h <> [] -> t <> [])
             /\ forall ms, ~ In (Value ms) (pendingMessages x)) ->
  exists t, messages (run trace x) = kept ++ t /\ (messages h <> [] -> t <> [])
            /\ forall ms, ~ In (Value ms) (pendingMessages (run trace x)).
Proof.
  induction trace as [| a tr IH]; intros x Htr Hx; [exact Hx |].
  inversion Htr as [| a' tr' Ha Htr']; subst. simpl. apply IH; auto.
  now apply kept_step.
Qed.

(** X10. As long as no [history] and no [cleared] event arrives, the
    messages shown before the last one are never changed nor removed:
    whatever is sent, received or rendered, the list keeps them as its
    beginning and does not get shorter. *)
Theorem earlier_messages_kept (trace : list Action) :
  (forall ms, ~ In (Value ms) (pendingMessages h)) ->
  Forall (fun a => replaces a = false) trace ->
  exists tail,
    messages (run trace h) = removelast (messages h) ++ tail
    /\ length (messages h) <= length (messages (run trace h)).
Proof.
  intros Hq Htrace.
  assert (H0 : exists t, messages h = kept ++ t /\ (messages h <> [] -> t <> [])
                         /\ forall ms, ~ In (Value ms) (pendingMessages h)).
  { unfold kept. destruct (messages h) as [| x l] eqn:E.
    - exists []. auto.
    - destruct (@exists_last _ (x :: l) ltac:(discriminate)) as (l' & y & E').
      rewrite E', removelast_last. exists [y]. repeat split; auto. discriminate. }
  destruct (@kept_run trace h Htrace H0) as (t & E & Hne & _). exists t. split; [exact E |].
  rewrite E, length_app. unfold kept.
  destruct (messages h) as [| x l] eqn:Eh; [simpl; lia |].
  destruct (@exists_last _ (x :: l) ltac:(discriminate)) as (l' & y & E').
  rewrite E', removelast_last, length_app. simpl.
  destruct t; [now destruct (Hne ltac:(discriminate)) | simpl; lia].
Qed.

End History.

Lemma earlier_messages_kept_witness :
  exists tail,
    messages
      (run [Receive (stream (lit " more")); Receive (error (lit "boom"));
            SendMessage (lit "again"); Render]
         (run [Mount; Opened; SendMessage (lit "hello"); Receive (stream (lit "Hi"));
               Render] initial))
    = removelast
        (messages
           (run [Mount; Opened; SendMessage (lit "hello"); Receive (stream (lit "Hi"));
                 Render] initial))
      ++ tail
    /\ length
         (messages
            (run [Mount; Opened; SendMessage (lit "hello"); Receive (stream (lit "Hi"));
                  Render] initial))
       <= length
            (messages
               (run [Receive (stream (lit " more")); Receive (error (lit "boom"));
                     SendMessage (lit "again"); Render]
                  (run [Mount; Opened; SendMessage (lit "hello");
                        Receive (stream (lit "Hi")); Render] initial))).
Proof.
  apply (@earlier_messages_kept
           (run [Mount; Opened; SendMessage (lit "hello"); Receive (stream (lit "Hi"));
                 Render] initial)).
  - intros ms Hin. exact Hin.
  - repeat constructor.
Defined.

Section Input.

Lemma trimStart_head (s : jsstring) (x : N) :
  hd_error (trimStart s) = Some x -> is_space x = false.
Proof.
  induction s as [| c s IH]; simpl; [discriminate |].
  destruct (is_space c) eqn:E; auto. simpl. now intros [= <-].
Qed.

Lemma trimStart_suffix (s : jsstring) : exists p, s = p ++ trimStart s.
Proof.
  induction s as [| c s (p & IH)]; simpl.
  - now exists [].
  - destruct (is_space c).
    + exists (c :: p). simpl. now f_equal.
    + now exists [].
Qed.

Lemma trim_head (s : jsstring) (x : N) :
  hd_error (trim s) = Some x -> is_space x = false.
Proof.
  unfold trim. intro H.
  destruct (trimStart_suffix (rev (trimStart s))) as (p & E).
  apply (f_equal (@rev N)) in E. rewrite rev_involutive, rev_app_distr in E.
  destruct (rev (trimStart (rev (trimStart s)))) as [| y l]; [discriminate |].
  simpl in H. injection H as ->. apply (trimStart_head s). now rewrite E.
Qed.

Lemma trim_last (s : jsstring) (x : N) :
  hd_error (rev (trim s)) = Some x -> is_space x = false.
Proof. unfold trim. rewrite rev_involutive. apply trimStart_head. Qed.

(** X11. [handleSubmit] sends at most one message, and only when the
    socket is open and no reply is awaited; what it sends is a [chat]
    with the trimmed input, which is not empty and neither begins nor
    ends with white space.  Whenever the trimmed input is not empty and
    no reply is awaited, the input field is emptied at the next render,
    even if the socket was not open and nothing was sent. *)
Theorem submit_sends_trimmed (h : Hook) :
  (sent (handleSubmit h) = sent h
   \/ (isOpen h = true /\ isLoading h = false
       /\ sent (handleSubmit h) = sent h ++ [chat (trim (input h))]
       /\ trim (input h) <> []
       /\ (forall x, hd_error (trim (input h)) = Some x -> is_space x = false)
       /\ (forall x, hd_error (rev (trim (input h))) = Some x -> is_space x = false)))
  /\ (trim (input h) <> [] -> isLoading h = false ->
      input (render (handleSubmit h)) = []).
Proof.
  unfold handleSubmit. split.
  - destruct (truthy (trim (input h))) eqn:Et; [| now left].
    destruct (isLoading h) eqn:El; [now left |]. simpl andb. cbv iota.
    unfold sendMessage. destruct (isOpen h) eqn:Eo; [| now left].
    right. repeat split; auto.
    + intro E. rewrite E in Et. discriminate Et.
    + apply trim_head.
    + apply trim_last.
  - intros Hne El. rewrite El.
    destruct (trim (input h)) as [| c t] eqn:Et; [congruence |].
    simpl andb. cbv iota. simpl. apply settle_queue.
Qed.

Lemma submit_sends_trimmed_witness :
  input
    (render
       (handleSubmit
          (run [Change (lit "  df -h  "); Render] initial)))
  = [].
Proof.
  apply (proj2 (submit_sends_trimmed (run [Change (lit "  df -h  "); Render] initial))).
  - vm_compute. discriminate.
  - reflexivity.
Defined.

Let word_unit (c : N) : bool :=
  ((97 <=? c) && (c <=? 122) || (65 <=? c) && (c <=? 90)
   || (48 <=? c) && (c <=? 57) || (c =? 95))%N.

Lemma Lang_word (c : N) : word_unit c = true -> Lang word [c].
Proof.
  unfold word_unit, word. intro H.
  apply orb_true_iff in H as [H | H]; [| apply L_AltR, L_AltR, L_AltR; now constructor].
  apply orb_true_iff in H as [H | H]; [| apply L_AltR, L_AltR, L_AltL; now constructor].
  apply orb_true_iff in H as [H | H]; [apply L_AltL | apply L_AltR, L_AltL]; now constructor.
Qed.

Lemma Lang_word_inv (s : jsstring) :
  Lang word s -> exists c, s = [c] /\ word_unit c = true.
Proof.
  assert (Hatom : forall k w, Lang (Atom k) w -> exists c, w = [c] /\ class_test k c = true).
  { intros k w H. inversion H; subst. eauto. }
  unfold word, word_unit. intro H.
  inversion H as [| | | p q w H1 | p q w H1 | |]; subst; clear H.
  { apply Hatom in H1 as (c & -> & Hc). exists c. split; auto.
    simpl in Hc. now rewrite Hc. }
  inversion H1 as [| | | p q w H2 | p q w H2 | |]; subst; clear H1.
  { apply Hatom in H2 as (c & -> & Hc). exists c. split; auto.
    simpl in Hc. rewrite Hc. now rewrite orb_true_r. }
  inversion H2 as [| | | p q w H3 | p q w H3 | |]; subst; clear H2.
  { apply Hatom in H3 as (c & -> & Hc). exists c. split; auto.
    simpl in Hc. rewrite Hc. now rewrite !orb_true_r. }
  apply Hatom in H3 as (c & -> & Hc). exists c. split; auto.
  simpl in Hc. rewrite Hc. now rewrite !orb_true_r.
Qed.

(** X12. The [code] component renders a block exactly when the class
    name is present and contains [language-] followed by a letter, a
    digit or an underscore; otherwise, and when there is no class name,
    the code is inline. *)
Theorem code_block_exactly (className : option jsstring) :
  isInline className = false <->
  exists cls pre c suf,
    className = Some cls /\ cls = pre ++ lit "language-" ++ c :: suf
    /\ ((97 <=? c) && (c <=? 122) || (65 <=? c) && (c <=? 90)
        || (48 <=? c) && (c <=? 57) || (c =? 95))%N = true.
Proof.
  unfold isInline. rewrite negb_false_iff. split.
  - intro H. apply test_spec in H as (pre & mid & suf & E & HL).
    unfold re_language in HL. split_seq HL.
    apply Lang_chars_inv in Hs. subst s.
    unfold Plus in Hs0. inversion Hs0 as [| | p q s1 t1 H1 H2 | | | |]; subst.
    apply Lang_word_inv in H1 as (c & -> & Hc).
    exists (or_else className []), pre, c, (t1 ++ suf). split; [| split].
    + destruct className as [[| x l] |]; simpl in E |- *; auto;
        apply (f_equal (@length N)) in E; rewrite !length_app in E;
        simpl in E; lia.
    + rewrite E, app_nil_r. now rewrite <- !app_assoc.
    + exact Hc.
  - intros (cls & pre & c & suf & Hname & Hcls & Hc).
    assert (E : or_else className [] = pre ++ lit "language-" ++ c :: suf).
    { subst. simpl. destruct pre; reflexivity. }
    rewrite E. apply test_spec. exists pre, (lit "language-" ++ [c]), suf.
    split; [now rewrite <- !app_assoc |].
    change (Lang re_language (concat [lit "language-"; [c]])).
    unfold re_language. apply Lang_seq.
    repeat (apply Forall2_cons || apply Forall2_nil); auto using Lang_chars.
    unfold Plus. change [c] with ([c] ++ []). constructor; [| constructor].
    now apply Lang_word.
Qed.

End Input.

(** Where the remote-script pattern stops looking: what follows [sh] is
    free, what stands between the pipe and [sh] is not. *)
Example remote_script_boundary :
  risks (dangerCheck (lit "curl x | shuf -n1")) = [remote_script]
  /\ risks (dangerCheck (lit "curl x | sha256sum")) = [remote_script]
  /\ risks (dangerCheck (lit "curl x | zsh")) = []
  /\ risks (dangerCheck (lit "curl x | sudo sh")) = [].
Proof. repeat split; vm_compute; reflexivity. Qed.
